(** * strangeattrs: the attractor simulation engine

    A shallow embedding of the simulation core of [src/main.js] (six
    attractor models, explicit Euler step, bounded trail buffer with a
    rainbow colour per slot) and of the two prototype variants that live
    next to it: the RK4 variant ([part_000]) and the Lorenz-only prototype
    ([part_001]).

    Numbers.  A JavaScript number is modelled as a real number, one of the
    two infinities, or NaN.  Arithmetic on finite values is exact real
    arithmetic: the rounding of binary64 operations, their overflow to an
    infinity and the sign of zero are not modelled, so the statements below
    about computed values are either structural (they hold whatever the
    arithmetic rounds to) or carry a tolerance.  NaN and the infinities
    propagate as IEEE 754 prescribes.  The conversion to binary32 that a
    store into a [Float32Array] performs is modelled ([Float32.fround]), and
    the colour function is modelled a second time with every operation
    rounded to binary64 ([Binary64.getColor]).

    Environment.  The DOM is not part of the engine: every frame reads the
    text of the parameter inputs from a snapshot [ui] that maps the id of
    each existing input element to its current [value].  The inputs
    [createUI] builds are range sliders; what such an input reads once a
    text is assigned to it is modelled in [Range]. *)

From Stdlib Require Import Reals Lqa Lra Lia ZArith QArith Qround Qreals.
From Stdlib Require Import String Ascii List.
From stdpp Require Import base option list strings.

Set Default Proof Using "Type".

(** ** JavaScript numbers *)

Inductive jsnum : Type :=
  | Num (r : R)
  | PInf
  | NInf
  | NaN.

Module JsNum.

#[local] Open Scope R_scope.

(** The infinity (or NaN) produced by multiplying an infinity by the
    finite value [a], or by dividing [a] by zero. *)
Definition signed_inf (a : R) : jsnum :=
  if Rlt_dec 0 a then PInf else if Rlt_dec a 0 then NInf else NaN.

Definition neg (u : jsnum) : jsnum :=
  match u with
  | Num a => Num (- a)
  | PInf => NInf
  | NInf => PInf
  | NaN => NaN
  end.

Definition add (u v : jsnum) : jsnum :=
  match u, v with
  | NaN, _ | _, NaN => NaN
  | Num a, Num b => Num (a + b)
  | PInf, NInf | NInf, PInf => NaN
  | PInf, _ | _, PInf => PInf
  | NInf, _ | _, NInf => NInf
  end.

Definition sub (u v : jsnum) : jsnum :=
  match u, v with
  | NaN, _ | _, NaN => NaN
  | Num a, Num b => Num (a - b)
  | PInf, PInf | NInf, NInf => NaN
  | PInf, _ | _, NInf => PInf
  | NInf, _ | _, PInf => NInf
  end.

Definition mul (u v : jsnum) : jsnum :=
  match u, v with
  | NaN, _ | _, NaN => NaN
  | Num a, Num b => Num (a * b)
  | Num a, PInf | PInf, Num a => signed_inf a
  | Num a, NInf | NInf, Num a => signed_inf (- a)
  | PInf, PInf | NInf, NInf => PInf
  | PInf, NInf | NInf, PInf => NInf
  end.

Definition div (u v : jsnum) : jsnum :=
  match u, v with
  | NaN, _ | _, NaN => NaN
  | Num a, Num b => if Req_dec_T b 0 then signed_inf a else Num (a / b)
  | Num _, _ => Num 0
  | PInf, Num b => if Rlt_dec b 0 then NInf else PInf
  | NInf, Num b => if Rlt_dec b 0 then PInf else NInf
  | _, _ => NaN
  end.

(** [Math.sin] *)
Definition sin (u : jsnum) : jsnum :=
  match u with
  | Num a => Num (Rtrigo_def.sin a)
  | _ => NaN
  end.

(** [Math.PI] *)
Definition PI : jsnum := Num Rtrigo1.PI.

Definition of_nat (n : nat) : jsnum := Num (INR n).

End JsNum.

Declare Scope js_scope.
Delimit Scope js_scope with js.
Bind Scope js_scope with jsnum.
Infix "+" := JsNum.add : js_scope.
Infix "-" := JsNum.sub : js_scope.
Infix "*" := JsNum.mul : js_scope.
Infix "/" := JsNum.div : js_scope.
Notation "- u" := (JsNum.neg u) : js_scope.

Arguments Num r%_R.

(** ** Binary floating-point formats

    The conversion of a real number to the binary format with [prec] bits
    of precision and exponents from [emin] to [emax], as IEEE 754 prescribes
    it: rounding to nearest with ties to even, with the subnormal numbers
    below [2 ^ emin], and an infinity for a magnitude that rounds to
    [2 ^ (emax + 1)].  binary32 is the format with 24 bits and exponents from
    -126 to 127, binary64 the one with 53 bits and exponents from -1022 to
    1023. *)

Module Binary.

#[local] Open Scope R_scope.

(** The integer nearest to [q], the even one of the two when [q] is halfway
    between them. *)
Definition nearest_even (q : R) : Z :=
  let f := Int_part q in
  let d := q - IZR f in
  if Rlt_dec d (1 / 2) then f
  else if Rlt_dec (1 / 2) d then (f + 1)%Z
  else if Z.even f then f else (f + 1)%Z.

(** The largest exponent [e' <= e] with [2 ^ e' <= m], looking [fuel]
    exponents down from [e] and stopping there. *)
Fixpoint binade (fuel : nat) (e : Z) (m : R) : Z :=
  match fuel with
  | O => e
  | S fuel' => if Rle_dec (powerRZ 2 e) m then e else binade fuel' (e - 1) m
  end.

Section Format.

Variables (prec emin emax : Z).

(** The exponent of the binade of the magnitude [m], from [emax] down to
    [emin], the exponent the subnormal numbers share. *)
Definition exponent (m : R) : Z := binade (Z.to_nat (emax - emin)) emax m.

(** The least magnitude that rounds to an infinity, halfway between the
    largest number of the format and [2 ^ (emax + 1)]. *)
Definition overflow : R := powerRZ 2 (emax + 1) - powerRZ 2 (emax - prec).

Definition round (a : R) : jsnum :=
  let m := Rabs a in
  if Rle_dec overflow m then JsNum.signed_inf a
  else
    let ulp := powerRZ 2 (exponent m - (prec - 1)) in
    let v := IZR (nearest_even (m / ulp)) * ulp in
    Num (if Rlt_dec a 0 then - v else v).

(** NaN and the infinities convert to themselves. *)
Definition convert (u : jsnum) : jsnum :=
  match u with
  | Num a => round a
  | _ => u
  end.

End Format.

End Binary.

(** ** Stores into a [Float32Array]

    A store converts the number to binary32 ([Math.fround] is the same
    conversion): a magnitude of 2^128 - 2^103 or more becomes an infinity. *)

Module Float32.

Definition fround (u : jsnum) : jsnum := Binary.convert 24 (-126) 127 u.

End Float32.

(** ** [parseFloat]

    The global [parseFloat] of the host, on ASCII text: leading white space
    is skipped, then the longest prefix that is a signed decimal literal
    (or a signed [Infinity]) is read; text without such a prefix is NaN.  A
    literal too large for binary64 reads as an infinity; the rounding of a
    literal that binary64 does not hold exactly is not modelled. *)

Module ParseFloat.

#[local] Open Scope Z_scope.

Definition is_white (c : ascii) : bool :=
  let n := Z.of_N (N_of_ascii c) in
  ((9 <=? n) && (n <=? 13)) || (n =? 32).

Fixpoint trim_start (s : string) : string :=
  match s with
  | String c t => if is_white c then trim_start t else s
  | EmptyString => s
  end.

Definition digit (c : ascii) : option Z :=
  let n := Z.of_N (N_of_ascii c) in
  if (48 <=? n) && (n <=? 57) then Some (n - 48) else None.

(** Reads the longest run of decimal digits: the value accumulated onto
    [acc], the number of digits read, and the remaining text. *)
Fixpoint digits (s : string) (acc : Z) (cnt : nat) : Z * nat * string :=
  match s with
  | String c t =>
      match digit c with
      | Some d => digits t (10 * acc + d) (S cnt)
      | None => (acc, cnt, s)
      end
  | EmptyString => (acc, cnt, s)
  end.

(** An optional sign: whether it is a minus, and the remaining text. *)
Definition sign (s : string) : bool * string :=
  match s with
  | String "-"%char t => (true, t)
  | String "+"%char t => (false, t)
  | _ => (false, s)
  end.

(** The exponent part, 0 when there is none (an [e] without digits is
    not part of the literal). *)
Definition exponent (s : string) : Z :=
  match s with
  | String c t =>
      if (Ascii.eqb c "e" || Ascii.eqb c "E")%bool then
        let (minus, t') := sign t in
        let '(v, n, _) := digits t' 0 0%nat in
        match n with
        | O => 0
        | S _ => if minus then - v else v
        end
      else 0
  | EmptyString => 0
  end.

(** An unsigned decimal literal as mantissa and power of ten. *)
Definition decimal (s : string) : option (Z * Z) :=
  let '(i, ni, r1) := digits s 0 0%nat in
  let '(m, nf, r2) :=
    match r1 with
    | String "."%char t => digits t i 0%nat
    | _ => (i, 0%nat, r1)
    end in
  match (ni + nf)%nat with
  | O => None
  | S _ => Some (m, exponent r2 - Z.of_nat nf)
  end.

(** What the text starts with, once white space is skipped. *)
Inductive literal : Type :=
  | NotANumber
  | Infinite (minus : bool)
  | Finite (m e : Z).

Definition scan (s : string) : literal :=
  let (minus, body) := sign (trim_start s) in
  if String.prefix "Infinity" body then Infinite minus
  else
    match decimal body with
    | None => NotANumber
    | Some (m, e) => Finite (if minus then - m else m) e
    end.

(** The least magnitude that binary64 rounds to an infinity. *)
Definition overflow : R := powerRZ 2 1024 - powerRZ 2 970.

Definition value (l : literal) : jsnum :=
  match l with
  | NotANumber => NaN
  | Infinite minus => if minus then NInf else PInf
  | Finite m e =>
      let v := (IZR m * powerRZ 10 e)%R in
      if Rle_dec overflow (Rabs v) then JsNum.signed_inf v else Num v
  end.

Definition parseFloat (s : string) : jsnum := value (scan s).

End ParseFloat.

(** ** Range inputs

    Every parameter input [createUI] builds is an [<input type="range">].
    Such an input never holds arbitrary text: whatever is assigned to its
    [value] (by the [value] attribute when it is created, by a script, or
    by the user dragging it) is sanitized by the host.  Text that is not a
    valid floating-point number is replaced by the default value, the
    midpoint of [min] and [max]; the number is then clamped to [min] and
    [max] and rounded to the nearest multiple of [step] counted from [min],
    upwards when two are as near.  The input reads the decimal text of the
    resulting number. *)

Module Range.

(** The attributes of a slider, as the markup writes them. *)
Record slider : Type := {
  id : string;
  min : string;
  max : string;
  step : string;
  value : string
}.

#[local] Open Scope Q_scope.

(** The exponent part of a valid floating-point number, which ends the
    text: nothing, or [e] or [E], an optional sign and digits. *)
Definition exponent_part (s : string) : bool :=
  match s with
  | EmptyString => true
  | String c t =>
      (Ascii.eqb c "e" || Ascii.eqb c "E")%bool &&
      let (_, t') := ParseFloat.sign t in
      let '(_, n, rest) := ParseFloat.digits t' 0%Z 0%nat in
      negb (Nat.eqb n 0) && String.eqb rest ""
  end.

(** A valid floating-point number: an optional minus, then digits, or
    digits followed by a dot and digits, or a dot and digits, then the
    exponent part; nothing before and nothing after. *)
Definition valid (s : string) : bool :=
  let body := match s with String "-"%char t => t | _ => s end in
  let '(_, ni, r1) := ParseFloat.digits body 0%Z 0%nat in
  match r1 with
  | String "."%char t =>
      let '(_, nf, r2) := ParseFloat.digits t 0%Z 0%nat in
      negb (Nat.eqb nf 0) && exponent_part r2
  | _ => negb (Nat.eqb ni 0) && exponent_part r1
  end.

(** The number a decimal text starts with, exactly. *)
Definition parsed (s : string) : option Q :=
  match ParseFloat.scan s with
  | ParseFloat.Finite m e => Some (inject_Z m * Qpower 10 e)
  | _ => None
  end.

(** The number a text assigned to [value] stands for, when it is valid. *)
Definition number (s : string) : option Q :=
  if valid s then parsed s else None.

(** [min], [max] and [step], with the defaults 0, 100 and 1 of the host. *)
Definition minimum (sl : slider) : Q := default 0 (parsed (min sl)).

Definition maximum (sl : slider) : Q := default 100 (parsed (max sl)).

Definition granularity (sl : slider) : Q :=
  match parsed (step sl) with
  | Some st => if Qle_bool st 0 then 1 else st
  | None => 1
  end.

Definition default_value (sl : slider) : Q :=
  let mn := minimum sl in let mx := maximum sl in
  if Qle_bool mn mx then mn + (mx - mn) / 2 else mn.

(** Clamping to [min] and [max], then rounding to the step grid. *)
Definition constrain (sl : slider) (v : Q) : Q :=
  let mn := minimum sl in let mx := maximum sl in
  let st := granularity sl in
  let v :=
    if negb (Qle_bool mn v) then mn
    else if Qle_bool mn mx && negb (Qle_bool v mx) then mx
    else v in
  let c := mn + inject_Z (Qfloor ((v - mn) / st + (1 # 2))) * st in
  if Qle_bool mn mx && negb (Qle_bool c mx)
  then mn + inject_Z (Qfloor ((mx - mn) / st)) * st
  else c.

(** The number the slider holds once [text] was assigned to its [value]. *)
Definition assigned (sl : slider) (text : string) : Q :=
  constrain sl (default (default_value sl) (number text)).

(** Whether [shown] is decimal text of the number the slider holds once
    [written] was assigned to it. *)
Definition reads (sl : slider) (written shown : string) : bool :=
  match number shown with
  | Some q => Qeq_bool q (assigned sl written)
  | None => false
  end.

End Range.

(** ** Parameter objects

    One model's parameter object, with its own enumerable keys in creation
    order.  A read of a missing key is [undefined], which every arithmetic
    use turns into NaN. *)

Abbreviation ParamSet := (list (string * jsnum)).

Fixpoint own (o : ParamSet) (k : string) : option jsnum :=
  match o with
  | [] => None
  | (k', v) :: o' => if String.eqb k k' then Some v else own o' k
  end.

(** [o.k] in an arithmetic context *)
Definition prop (o : ParamSet) (k : string) : jsnum :=
  match own o k with
  | Some v => v
  | None => NaN
  end.

(** [o[k] = v]: overwrites the key in place, or adds it last. *)
Fixpoint assign (o : ParamSet) (k : string) (v : jsnum) : ParamSet :=
  match o with
  | [] => [(k, v)]
  | (k', v') :: o' =>
      if String.eqb k k' then (k', v) :: o' else (k', v') :: assign o' k v
  end.

(** [Object.keys(o)] *)
Definition keys (o : ParamSet) : list string := map fst o.

(** The [params] object: its six keys are fixed by the literal that creates
    it and no code adds or removes one. *)
Record Params : Type := {
  lorenz : ParamSet;
  aizawa : ParamSet;
  rossler : ParamSet;
  chen : ParamSet;
  thomas : ParamSet;
  dadras : ParamSet
}.

(** [params[name]]: a name that is not an own key reads [undefined] (or an
    inherited member without own enumerable keys, on which the callers do
    nothing either). *)
Definition params_get (p : Params) (name : string) : option ParamSet :=
  if String.eqb name "lorenz" then Some (lorenz p)
  else if String.eqb name "aizawa" then Some (aizawa p)
  else if String.eqb name "rossler" then Some (rossler p)
  else if String.eqb name "chen" then Some (chen p)
  else if String.eqb name "thomas" then Some (thomas p)
  else if String.eqb name "dadras" then Some (dadras p)
  else None.

(** The effect on [params] of mutating the object [params[name]] into [o]. *)
Definition params_put (p : Params) (name : string) (o : ParamSet) : Params :=
  if String.eqb name "lorenz" then
    {| lorenz := o; aizawa := aizawa p; rossler := rossler p;
       chen := chen p; thomas := thomas p; dadras := dadras p |}
  else if String.eqb name "aizawa" then
    {| lorenz := lorenz p; aizawa := o; rossler := rossler p;
       chen := chen p; thomas := thomas p; dadras := dadras p |}
  else if String.eqb name "rossler" then
    {| lorenz := lorenz p; aizawa := aizawa p; rossler := o;
       chen := chen p; thomas := thomas p; dadras := dadras p |}
  else if String.eqb name "chen" then
    {| lorenz := lorenz p; aizawa := aizawa p; rossler := rossler p;
       chen := o; thomas := thomas p; dadras := dadras p |}
  else if String.eqb name "thomas" then
    {| lorenz := lorenz p; aizawa := aizawa p; rossler := rossler p;
       chen := chen p; thomas := o; dadras := dadras p |}
  else if String.eqb name "dadras" then
    {| lorenz := lorenz p; aizawa := aizawa p; rossler := rossler p;
       chen := chen p; thomas := thomas p; dadras := o |}
  else p.

(** The six-member model set. *)
Definition models : list string :=
  ["lorenz"; "aizawa"; "rossler"; "chen"; "thomas"; "dadras"]%string.

(** The input elements of the page that exist, by id, with their text. *)
Abbreviation UI := (string -> option string).

(** [document.getElementById(id)] on an input element *)
Definition getElementById (ui : UI) (id : string) : option string := ui id.

(** A page given by its input elements, id and text; the first element
    with an id is the one the lookup finds. *)
Fixpoint text_of (inputs : list (string * string)) (id : string)
    : option string :=
  match inputs with
  | [] => None
  | (i, text) :: inputs' =>
      if String.eqb id i then Some text else text_of inputs' id
  end.

Definition page (inputs : list (string * string)) : UI := text_of inputs.

(** A state vector, and a vector of the render buffer. *)
Abbreviation Vector3 := (jsnum * jsnum * jsnum)%type.

(** What three cells of a [Float32Array] hold once the coordinates of [v]
    were stored in them. *)
Definition stored (v : Vector3) : Vector3 :=
  let '(a, b, c) := v in
  (Float32.fround a, Float32.fround b, Float32.fround c).

(** ** Typed arrays

    [positions] and [colors] are [Float32Array]s.  Their cells hold binary32
    values: a store of a computed number converts it, and a cell copied from
    another cell of the array is stored as it is. *)

(** [arr[i]]: out of range reads [undefined], NaN once stored back. *)
Definition read (arr : list jsnum) (i : nat) : jsnum :=
  match arr !! i with
  | Some v => v
  | None => NaN
  end.

(** [arr.fill(0)] *)
Definition fill0 (arr : list jsnum) : list jsnum :=
  replicate (length arr) (Num 0).

(** ** The integrators and the derivative table, in the words of the
    specification *)

Module Spec.

Section Vectors.

#[local] Open Scope js_scope.

Definition vadd (u v : Vector3) : Vector3 :=
  let '(a, b, c) := u in let '(a', b', c') := v in (a + a', b + b', c + c').

Definition vscale (h : jsnum) (v : Vector3) : Vector3 :=
  let '(a, b, c) := v in (h * a, h * b, h * c).

Definition vdiv (v : Vector3) (d : jsnum) : Vector3 :=
  let '(a, b, c) := v in (a / d, b / d, c / d).

(** Modelled from the spec: classical explicit 4th-order Runge-Kutta with
    fixed step [h], as section 4.2 writes it. *)
Definition rk4_step (f : Vector3 -> Vector3) (h : jsnum) (s : Vector3)
    : Vector3 :=
  let k1 := vscale h (f s) in
  let k2 := vscale h (f (vadd s (vdiv k1 (Num 2)))) in
  let k3 := vscale h (f (vadd s (vdiv k2 (Num 2)))) in
  let k4 := vscale h (f (vadd s k3)) in
  vadd s (vdiv (vadd (vadd (vadd k1 (vscale (Num 2) k2))
                            (vscale (Num 2) k3)) k4) (Num 6)).

(** Modelled from the spec: single-substep explicit Euler,
    [state += derivative(state) * dt], as the design notes write it. *)
Definition euler_step (f : Vector3 -> Vector3) (h : jsnum) (s : Vector3)
    : Vector3 :=
  vadd s (vscale h (f s)).

(** Modelled from the spec: the closed set of six models (section 3),
    with the identifier and the parameter object of each. *)
Inductive Model : Type := Lorenz | Aizawa | Rossler | Chen | Thomas | Dadras.

Definition model_id (m : Model) : string :=
  match m with
  | Lorenz => "lorenz"
  | Aizawa => "aizawa"
  | Rossler => "rossler"
  | Chen => "chen"
  | Thomas => "thomas"
  | Dadras => "dadras"
  end.

Definition param_set (p : Params) (m : Model) : ParamSet :=
  match m with
  | Lorenz => lorenz p
  | Aizawa => aizawa p
  | Rossler => rossler p
  | Chen => chen p
  | Thomas => thomas p
  | Dadras => dadras p
  end.

(** Modelled from the spec: the derivative table of section 4.1, a power
    read as the repeated product taken from left to right. *)
Definition derivative (m : Model) (o : ParamSet) (s : Vector3) : Vector3 :=
  let '(x, y, z) := s in
  match m with
  | Lorenz =>
      let sigma := prop o "sigma" in let rho := prop o "rho" in
      let beta := prop o "beta" in
      (sigma * (y - x), x * (rho - z) - y, x * y - beta * z)
  | Rossler =>
      let a := prop o "a" in let b := prop o "b" in let c := prop o "c" in
      (- y - z, x + a * y, b + z * (x - c))
  | Chen =>
      let a := prop o "a" in let b := prop o "b" in let c := prop o "c" in
      (a * (y - x), (c - a) * x - x * z + c * y, x * y - b * z)
  | Thomas =>
      let b := prop o "b" in
      (JsNum.sin y - b * x, JsNum.sin z - b * y, JsNum.sin x - b * z)
  | Dadras =>
      let a := prop o "a" in let b := prop o "b" in let c := prop o "c" in
      let d := prop o "d" in let e := prop o "e" in
      (y - a * x + b * y * z, c * y - x * z + z, d * x * y - e * z)
  | Aizawa =>
      let a := prop o "a" in let b := prop o "b" in let c := prop o "c" in
      let d := prop o "d" in let e := prop o "e" in let f := prop o "f" in
      ((z - b) * x - d * y,
       d * x + (z - b) * y,
       c + a * z - z * z * z / Num 3 - (x * x + y * y) * (Num 1 + e * z)
         + f * z * x * x * x)
  end.

(** Modelled from the spec: the concrete Lorenz scenario of section 8,
    the state one step must yield from (0.1, 0, 0) with the default
    parameters, each coordinate within the tolerance. *)
Definition close (tol : R) (u : jsnum) (target : R) : Prop :=
  match u with
  | Num a => (Rabs (a - target) <= tol)%R
  | _ => False
  end.

Definition lorenz_scenario (v : Vector3) : Prop :=
  let '(a, b, c) := v in
  close 0.0001 a 0.091793 /\ close 0.0001 b 0.026634 /\
  close 0.0001 c 0.0000126.

End Vectors.

End Spec.

(** ** main.js *)

Module Main.

(** [const maxPoints = 10000] *)
Definition maxPoints : nat := Z.to_nat 10000.

(** The module-level variables of the script. *)
Record engine : Type := {
  x : jsnum;
  y : jsnum;
  z : jsnum;
  params : Params;
  currentAttractor : string;
  pointCount : nat;
  positions : list jsnum;
  colors : list jsnum
}.

Definition default_params : Params := {|
  lorenz := [("sigma", Num 10); ("rho", Num 28); ("beta", Num 2.666);
             ("dt", Num 0.01)]%string;
  aizawa := [("a", Num 0.95); ("b", Num 0.7); ("c", Num 0.6);
             ("d", Num 3.5); ("e", Num 0.25); ("f", Num 0.1);
             ("dt", Num 0.01)]%string;
  rossler := [("a", Num 0.2); ("b", Num 0.2); ("c", Num 5.7);
              ("dt", Num 0.01)]%string;
  chen := [("a", Num 35); ("b", Num 3); ("c", Num 28);
           ("dt", Num 0.001)]%string;
  thomas := [("b", Num 0.208186); ("dt", Num 0.05)]%string;
  dadras := [("a", Num 3); ("b", Num 2.7); ("c", Num 1.7); ("d", Num 2);
             ("e", Num 9); ("dt", Num 0.01)]%string
|}.

(** The state the script starts in. *)
Definition initial : engine := {|
  x := Num 0.1; y := Num 0; z := Num 0;
  params := default_params;
  currentAttractor := "lorenz";
  pointCount := 0;
  positions := replicate (maxPoints * 3) (Num 0);
  colors := replicate (maxPoints * 3) (Num 0)
|}.

(** [updateUIFromParams] only writes to the page. *)
Definition updateUIFromParams (s : engine) : engine := s.

Definition resetAttractor (s : engine) : engine :=
  updateUIFromParams
    {| x := Num 0.1; y := Num 0; z := Num 0;
       params := params s;
       currentAttractor := currentAttractor s;
       pointCount := 0;
       positions := fill0 (positions s);
       colors := fill0 (colors s) |}.

(** The body of the [forEach] of [updateParametersFromUI], on the object
    [currentParams] of the model [name]. *)
Definition update_key (ui : UI) (name : string) (currentParams : ParamSet)
    (key : string) : ParamSet :=
  match getElementById ui (name ++ "-" ++ key)%string with
  | Some value => assign currentParams key (ParseFloat.parseFloat value)
  | None => currentParams
  end.

Definition updateParametersFromUI (ui : UI) (s : engine) : engine :=
  match params_get (params s) (currentAttractor s) with
  | Some currentParams =>
      let o := fold_left (update_key ui (currentAttractor s))
                 (keys currentParams) currentParams in
      {| x := x s; y := y s; z := z s;
         params := params_put (params s) (currentAttractor s) o;
         currentAttractor := currentAttractor s;
         pointCount := pointCount s;
         positions := positions s;
         colors := colors s |}
  | None => s
  end.

Definition changeAttractor (type : string) (s : engine) : engine :=
  resetAttractor
    {| x := x s; y := y s; z := z s;
       params := params s;
       currentAttractor := type;
       pointCount := pointCount s;
       positions := positions s;
       colors := colors s |}.

Section Equations.

#[local] Open Scope js_scope.

(** The [switch] of [computeNextPoint]: the three deltas. *)
Definition deltas (s : engine) : Vector3 :=
  let x := x s in let y := y s in let z := z s in
  let cur := currentAttractor s in
  if String.eqb cur "lorenz" then
    let o := lorenz (params s) in
    let sigma := prop o "sigma" in let rho := prop o "rho" in
    let beta := prop o "beta" in let dt := prop o "dt" in
    (sigma * (y - x) * dt,
     (x * (rho - z) - y) * dt,
     (x * y - beta * z) * dt)
  else if String.eqb cur "aizawa" then
    let o := aizawa (params s) in
    let a := prop o "a" in let b := prop o "b" in let c := prop o "c" in
    let d := prop o "d" in let e := prop o "e" in let f := prop o "f" in
    let dtA := prop o "dt" in
    let dx := (z - b) * x - d * y in
    let dy := d * x + (z - b) * y in
    let dz := c + a * z - z * z * z / Num 3
              - (x * x + y * y) * (Num 1 + e * z) + f * z * x * x * x in
    (dx * dtA, dy * dtA, dz * dtA)
  else if String.eqb cur "rossler" then
    let o := rossler (params s) in
    let aR := prop o "a" in let bR := prop o "b" in
    let cR := prop o "c" in let dtR := prop o "dt" in
    ((- y - z) * dtR,
     (x + aR * y) * dtR,
     (bR + z * (x - cR)) * dtR)
  else if String.eqb cur "chen" then
    let o := chen (params s) in
    let aC := prop o "a" in let bC := prop o "b" in
    let cC := prop o "c" in let dtC := prop o "dt" in
    (aC * (y - x) * dtC,
     ((cC - aC) * x - x * z + cC * y) * dtC,
     (x * y - bC * z) * dtC)
  else if String.eqb cur "thomas" then
    let o := thomas (params s) in
    let bT := prop o "b" in let dtT := prop o "dt" in
    ((JsNum.sin y - bT * x) * dtT,
     (JsNum.sin z - bT * y) * dtT,
     (JsNum.sin x - bT * z) * dtT)
  else if String.eqb cur "dadras" then
    let o := dadras (params s) in
    let aD := prop o "a" in let bD := prop o "b" in
    let cD := prop o "c" in let dD := prop o "d" in
    let eD := prop o "e" in let dtD := prop o "dt" in
    ((y - aD * x + bD * y * z) * dtD,
     (cD * y - x * z + z) * dtD,
     (dD * x * y - eD * z) * dtD)
  else (Num 0, Num 0, Num 0).

(** [computeNextPoint]: the new state; the vector it returns holds the
    new [x], [y], [z]. *)
Definition computeNextPoint (s : engine) : engine :=
  let '(dx, dy, dz) := deltas s in
  {| x := x s + dx; y := y s + dy; z := z s + dz;
     params := params s;
     currentAttractor := currentAttractor s;
     pointCount := pointCount s;
     positions := positions s;
     colors := colors s |}.

Definition newPoint (s : engine) : Vector3 := (x s, y s, z s).

Record Color : Type := { r : jsnum; g : jsnum; b : jsnum }.

Definition getColor (i : jsnum) : Color :=
  let phi := i / JsNum.of_nat maxPoints * JsNum.PI * Num 2 in
  {| r := JsNum.sin phi * Num 0.5 + Num 0.5;
     g := JsNum.sin (phi + Num 2 * JsNum.PI / Num 3) * Num 0.5 + Num 0.5;
     b := JsNum.sin (phi + Num 4 * JsNum.PI / Num 3) * Num 0.5 + Num 0.5 |}.

End Equations.

(** The three stores [arr[i * 3] = a; arr[i * 3 + 1] = b; arr[i * 3 + 2] = c]
    into a [Float32Array] *)
Definition store3 (arr : list jsnum) (i : nat) (v : Vector3) : list jsnum :=
  let '(a, b, c) := v in
  <[i * 3 + 2 := Float32.fround c]>
    (<[i * 3 + 1 := Float32.fround b]> (<[i * 3 := Float32.fround a]> arr)).

(** One iteration of the loop that shifts the trail: the three copies
    [a[i * 3] = a[(i + 1) * 3]], ... it makes in an array, first in
    [positions], then in [colors]. *)
Definition shift_array (a : list jsnum) (i : nat) : list jsnum :=
  let a := <[i * 3 := read a ((i + 1) * 3)]> a in
  let a := <[i * 3 + 1 := read a ((i + 1) * 3 + 1)]> a in
  <[i * 3 + 2 := read a ((i + 1) * 3 + 2)]> a.

Definition shift_body (pc : list jsnum * list jsnum) (i : nat)
    : list jsnum * list jsnum :=
  let (p, c) := pc in (shift_array p i, shift_array c i).

(** The first [n] iterations of the loop, on one array. *)
Definition shifted (n : nat) (a : list jsnum) : list jsnum :=
  fold_left shift_array (seq 0 n) a.

(** [for (let i = 0; i < maxPoints - 1; i++)] *)
Definition shift_loop (pc : list jsnum * list jsnum)
    : list jsnum * list jsnum :=
  fold_left shift_body (seq 0 (maxPoints - 1)) pc.

Definition color_vector (c : Color) : Vector3 := (r c, g c, b c).

(** The buffer update of [animate], given the point just computed. *)
Definition append (s : engine) : engine :=
  if decide (pointCount s < maxPoints) then
    {| x := x s; y := y s; z := z s;
       params := params s;
       currentAttractor := currentAttractor s;
       pointCount := S (pointCount s);
       positions := store3 (positions s) (pointCount s) (newPoint s);
       colors := store3 (colors s) (pointCount s)
                   (color_vector (getColor (JsNum.of_nat (pointCount s)))) |}
  else
    let (p, c) := shift_loop (positions s, colors s) in
    {| x := x s; y := y s; z := z s;
       params := params s;
       currentAttractor := currentAttractor s;
       pointCount := pointCount s;
       positions := store3 p (maxPoints - 1) (newPoint s);
       colors := store3 c (maxPoints - 1)
                   (color_vector (getColor (JsNum.of_nat (maxPoints - 1)))) |}.

(** One frame: [animate], without the rendering calls. *)
Definition animate (ui : UI) (s : engine) : engine :=
  append (computeNextPoint (updateParametersFromUI ui s)).

(** The frames run one after the other, each with the page as it is then. *)
Definition run (uis : list UI) (s : engine) : engine :=
  fold_left (fun s ui => animate ui s) uis s.

(** The trajectory: the point computed in each frame, oldest first. *)
Fixpoint trajectory (uis : list UI) (s : engine) : list Vector3 :=
  match uis with
  | [] => []
  | ui :: uis' =>
      let s' := animate ui s in newPoint s' :: trajectory uis' s'
  end.

(** The vector, and the colour, held by slot [i] of the render buffers. *)
Definition slot (arr : list jsnum) (i : nat) : Vector3 :=
  (read arr (i * 3), read arr (i * 3 + 1), read arr (i * 3 + 2)).

(** The live part of the trail: the points the renderer draws, oldest
    first ([setDrawRange(0, pointCount)]). *)
Definition trail (s : engine) : list Vector3 :=
  map (slot (positions s)) (seq 0 (pointCount s)).

(** The sliders [createUI] puts on the page, with their attributes. *)
Definition range (id min max step value : string) : Range.slider :=
  {| Range.id := id; Range.min := min; Range.max := max;
     Range.step := step; Range.value := value |}.

Definition sliders : list Range.slider :=
  [range "lorenz-sigma" "1" "20" "0.1" "10";
   range "lorenz-rho" "0" "100" "0.1" "28";
   range "lorenz-beta" "0" "10" "0.001" "2.666";
   range "lorenz-dt" "0.001" "0.05" "0.001" "0.01";
   range "aizawa-a" "0.1" "2" "0.01" "0.95";
   range "aizawa-b" "0.1" "2" "0.01" "0.7";
   range "aizawa-c" "0.1" "2" "0.01" "0.6";
   range "aizawa-d" "1" "10" "0.1" "3.5";
   range "aizawa-e" "0.1" "1" "0.01" "0.25";
   range "aizawa-f" "0.01" "0.5" "0.01" "0.1";
   range "aizawa-dt" "0.001" "0.05" "0.001" "0.01";
   range "rossler-a" "0.1" "0.4" "0.01" "0.2";
   range "rossler-b" "0.1" "0.4" "0.01" "0.2";
   range "rossler-c" "1" "14" "0.1" "5.7";
   range "rossler-dt" "0.001" "0.05" "0.001" "0.01";
   range "chen-a" "20" "50" "0.1" "35";
   range "chen-b" "1" "10" "0.1" "3";
   range "chen-c" "10" "40" "0.1" "28";
   range "chen-dt" "0.0001" "0.01" "0.0001" "0.001";
   range "thomas-b" "0.1" "0.3" "0.001" "0.208186";
   range "thomas-dt" "0.01" "0.1" "0.01" "0.05";
   range "dadras-a" "1" "5" "0.1" "3";
   range "dadras-b" "1" "5" "0.1" "2.7";
   range "dadras-c" "0.5" "3" "0.1" "1.7";
   range "dadras-d" "0.5" "5" "0.1" "2";
   range "dadras-e" "5" "15" "0.1" "9";
   range "dadras-dt" "0.001" "0.05" "0.001" "0.01"]%string.

(** Whether the slider with the id reads [shown] once [written] was assigned
    to its [value]. *)
Definition slider_reads (id written shown : string) : bool :=
  match find (fun sl => String.eqb (Range.id sl) id) sliders with
  | Some sl => Range.reads sl written shown
  | None => false
  end.

(** What each slider reads when [createUI] returns: its [value] attribute
    where that is on the slider's grid, and 0.208 for [thomas-b], whose
    attribute 0.208186 is between two steps of 0.001. *)
Definition created_inputs : list (string * string) :=
  [("lorenz-sigma", "10"); ("lorenz-rho", "28"); ("lorenz-beta", "2.666");
   ("lorenz-dt", "0.01");
   ("aizawa-a", "0.95"); ("aizawa-b", "0.7"); ("aizawa-c", "0.6");
   ("aizawa-d", "3.5"); ("aizawa-e", "0.25"); ("aizawa-f", "0.1");
   ("aizawa-dt", "0.01");
   ("rossler-a", "0.2"); ("rossler-b", "0.2"); ("rossler-c", "5.7");
   ("rossler-dt", "0.01");
   ("chen-a", "35"); ("chen-b", "3"); ("chen-c", "28"); ("chen-dt", "0.001");
   ("thomas-b", "0.208"); ("thomas-dt", "0.05");
   ("dadras-a", "3"); ("dadras-b", "2.7"); ("dadras-c", "1.7");
   ("dadras-d", "2"); ("dadras-e", "9"); ("dadras-dt", "0.01")]%string.

(** Whether every input of the list is a slider of [createUI] that reads the
    text the list gives it, its [value] attribute having been assigned. *)
Definition as_created (inputs : list (string * string)) : bool :=
  forallb
    (fun '(id, shown) =>
       match find (fun sl => String.eqb (Range.id sl) id) sliders with
       | Some sl => Range.reads sl (Range.value sl) shown
       | None => false
       end)
    inputs.

(** The page as [createUI] leaves it, no slider moved. *)
Definition created_page : UI := page created_inputs.

(** The inputs with the text of the one with the id replaced. *)
Definition with_text (id text : string) (inputs : list (string * string))
    : list (string * string) :=
  map (fun '(i, t) => if String.eqb i id then (i, text) else (i, t)) inputs.

(** The page once text that is not a number was assigned to the rho slider
    of lorenz: the slider reads its default, 50. *)
Definition rho_rewritten_page : UI :=
  page (with_text "lorenz-rho" "50" created_inputs).

(** The state after the first frame on that page. *)
Definition after_first_frame : engine := animate created_page initial.

(** The start state once an identifier outside the model set is selected. *)
Definition unknown_selected : engine := changeAttractor "henon" initial.

(** A page [createUI] does not build: ahead of the sliders, an element
    with the id of the rho slider of lorenz that is no range input and
    holds text that is not a number. *)
Definition bad_rho_page : UI :=
  page (("lorenz-rho", "not-a-number")%string :: created_inputs).

(** The state once the buffer has just filled: as many frames as it holds
    points, on the page as created, from a reset. *)
Definition at_capacity : engine :=
  run (replicate maxPoints created_page) (resetAttractor initial).

(** One frame more than the buffer holds, on the page as created, and the
    state these frames lead to from the start. *)
Definition frames_past_capacity : list UI :=
  replicate (S maxPoints) created_page.

Definition after_first_eviction : engine :=
  run frames_past_capacity (resetAttractor initial).

(** A quarter of the capacity, and the state a quarter of the capacity of
    frames after the buffer has filled. *)
Definition quarter : nat := Z.to_nat 2500.

Definition after_quarter_turn : engine :=
  run (replicate (maxPoints + quarter) created_page) (resetAttractor initial).

(** The two render buffers are the typed arrays created at start-up,
    whose length never changes. *)
Definition allocated (s : engine) : Prop :=
  length (positions s) = maxPoints * 3 /\ length (colors s) = maxPoints * 3.

(** The states the script can be in: it starts in [initial], runs a frame
    per animation tick, and the page calls [resetAttractor] and
    [changeAttractor] from its listeners. *)
Inductive reachable : engine -> Prop :=
  | reach_initial : reachable initial
  | reach_animate ui s : reachable s -> reachable (animate ui s)
  | reach_reset s : reachable s -> reachable (resetAttractor s)
  | reach_change type s : reachable s -> reachable (changeAttractor type s).

End Main.

(** ** [getColor] in binary64

    The colour function of main.js with its arithmetic as the engine does
    it: every division, multiplication and addition yields the binary64
    number nearest to the exact result, [Math.PI] is the binary64 number
    nearest to pi, and [Math.sin] is taken to yield the binary64 number
    nearest to the sine of its argument.  The literals 0.5, 2, 3 and 4, the
    capacity and the indices of the slots are binary64 numbers as they
    stand. *)

Module Binary64.

Definition round (u : jsnum) : jsnum := Binary.convert 53 (-1022) 1023 u.

Definition add (u v : jsnum) : jsnum := round (u + v).
Definition mul (u v : jsnum) : jsnum := round (u * v).
Definition div (u v : jsnum) : jsnum := round (u / v).

(** [Math.sin] *)
Definition sin (u : jsnum) : jsnum := round (JsNum.sin u).

(** [Math.PI], 0x1.921fb54442d18p+1 *)
Definition PI : jsnum := Num (884279719003555 * powerRZ 2 (-48)).

Definition getColor (i : jsnum) : Main.Color :=
  let phi := mul (mul (div i (JsNum.of_nat Main.maxPoints)) PI) (Num 2) in
  {| Main.r := add (mul (sin phi) (Num 0.5)) (Num 0.5);
     Main.g :=
       add (mul (sin (add phi (div (mul (Num 2) PI) (Num 3)))) (Num 0.5))
         (Num 0.5);
     Main.b :=
       add (mul (sin (add phi (div (mul (Num 4) PI) (Num 3)))) (Num 0.5))
         (Num 0.5) |}.

End Binary64.

(** ** The RK4 variant (part_000)

    The module-level variables, [updateParametersFromUI], [changeAttractor]'s
    body, [getColor] and [animate] of this file are those of main.js word for
    word; the derivative functions, [resetAttractor] and [computeNextPoint]
    are its own. *)

Module Rk4.

Import Main.

Section Equations.

#[local] Open Scope js_scope.

Definition lorenzDerivatives (x y z : jsnum) (params : ParamSet) : Vector3 :=
  let sigma := prop params "sigma" in let rho := prop params "rho" in
  let beta := prop params "beta" in
  (sigma * (y - x), x * (rho - z) - y, x * y - beta * z).

Definition aizawaDerivatives (x y z : jsnum) (params : ParamSet) (k : jsnum)
    : Vector3 :=
  let a := prop params "a" in let b := prop params "b" in
  let c := prop params "c" in let d := prop params "d" in
  let e := prop params "e" in let f := prop params "f" in
  ((z / k - b) * x - d * y,
   d * x + (z / k - b) * y,
   k * c + a * z - z * z * z / (Num 3 * k * k)
     - (x * x + y * y) / k * (Num 1 + e * z / k)
     + f * z * x * x * x / (k * k * k)).

Definition rosslerDerivatives (x y z : jsnum) (params : ParamSet) : Vector3 :=
  let a := prop params "a" in let b := prop params "b" in
  let c := prop params "c" in
  (- y - z, x + a * y, b + z * (x - c)).

Definition chenDerivatives (x y z : jsnum) (params : ParamSet) : Vector3 :=
  let a := prop params "a" in let b := prop params "b" in
  let c := prop params "c" in
  (a * (y - x), (c - a) * x - x * z + c * y, x * y - b * z).

Definition thomasDerivatives (x y z : jsnum) (params : ParamSet) : Vector3 :=
  let b := prop params "b" in
  (JsNum.sin y - b * x, JsNum.sin z - b * y, JsNum.sin x - b * z).

Definition dadrasDerivatives (x y z : jsnum) (params : ParamSet) : Vector3 :=
  let a := prop params "a" in let b := prop params "b" in
  let c := prop params "c" in let d := prop params "d" in
  let e := prop params "e" in
  (y - a * x + b * y * z, c * y - x * z + z, d * x * y - e * z).

Definition resetAttractor (s : engine) : engine :=
  let k := Num 10 in
  let '(x0, y0, z0) :=
    if String.eqb (currentAttractor s) "aizawa"
    then (Num 0.1 * k, Num 0 * k, Num 0 * k)
    else (Num 0.1, Num 0, Num 0) in
  updateUIFromParams
    {| x := x0; y := y0; z := z0;
       params := params s;
       currentAttractor := currentAttractor s;
       pointCount := 0;
       positions := fill0 (positions s);
       colors := fill0 (colors s) |}.

Definition changeAttractor (type : string) (s : engine) : engine :=
  resetAttractor
    {| x := x s; y := y s; z := z s;
       params := params s;
       currentAttractor := type;
       pointCount := pointCount s;
       positions := positions s;
       colors := colors s |}.

(** The block every [case] of the [switch] repeats, with the derivative
    function [deriv] and the step [dt] of its model: the three deltas. *)
Definition rk4_case (deriv : jsnum -> jsnum -> jsnum -> Vector3)
    (dt x y z : jsnum) : Vector3 :=
  let '(k1x, k1y, k1z) := deriv x y z in
  let k1x := k1x * dt in let k1y := k1y * dt in let k1z := k1z * dt in
  let '(k2x, k2y, k2z) :=
    deriv (x + k1x / Num 2) (y + k1y / Num 2) (z + k1z / Num 2) in
  let k2x := k2x * dt in let k2y := k2y * dt in let k2z := k2z * dt in
  let '(k3x, k3y, k3z) :=
    deriv (x + k2x / Num 2) (y + k2y / Num 2) (z + k2z / Num 2) in
  let k3x := k3x * dt in let k3y := k3y * dt in let k3z := k3z * dt in
  let '(k4x, k4y, k4z) := deriv (x + k3x) (y + k3y) (z + k3z) in
  let k4x := k4x * dt in let k4y := k4y * dt in let k4z := k4z * dt in
  ((k1x + Num 2 * k2x + Num 2 * k3x + k4x) / Num 6,
   (k1y + Num 2 * k2y + Num 2 * k3y + k4y) / Num 6,
   (k1z + Num 2 * k2z + Num 2 * k3z + k4z) / Num 6).

(** The derivative function and parameter object a [case] works with. *)
Definition case_of (s : engine) (name : string)
    : option ((jsnum -> jsnum -> jsnum -> Vector3) * ParamSet) :=
  let k := Num 10 in
  if String.eqb name "lorenz" then
    Some (fun x y z => lorenzDerivatives x y z (lorenz (params s)),
          lorenz (params s))
  else if String.eqb name "aizawa" then
    Some (fun x y z => aizawaDerivatives x y z (aizawa (params s)) k,
          aizawa (params s))
  else if String.eqb name "rossler" then
    Some (fun x y z => rosslerDerivatives x y z (rossler (params s)),
          rossler (params s))
  else if String.eqb name "chen" then
    Some (fun x y z => chenDerivatives x y z (chen (params s)),
          chen (params s))
  else if String.eqb name "thomas" then
    Some (fun x y z => thomasDerivatives x y z (thomas (params s)),
          thomas (params s))
  else if String.eqb name "dadras" then
    Some (fun x y z => dadrasDerivatives x y z (dadras (params s)),
          dadras (params s))
  else None.

Definition deltas (s : engine) : Vector3 :=
  match case_of s (currentAttractor s) with
  | Some (deriv, o) => rk4_case deriv (prop o "dt") (x s) (y s) (z s)
  | None => (Num 0, Num 0, Num 0)
  end.

Definition computeNextPoint (s : engine) : engine :=
  let '(dx, dy, dz) := deltas s in
  {| x := x s + dx; y := y s + dy; z := z s + dz;
     params := params s;
     currentAttractor := currentAttractor s;
     pointCount := pointCount s;
     positions := positions s;
     colors := colors s |}.

End Equations.

(** [animate] is that of main.js, around this file's [computeNextPoint]. *)
Definition animate (ui : UI) (s : engine) : engine :=
  append (computeNextPoint (updateParametersFromUI ui s)).

(** The derivative function each [case] passes its state through, on
    vectors. *)
Definition derivative (p : Params) (m : Spec.Model) (v : Vector3) : Vector3 :=
  let '(x, y, z) := v in
  match m with
  | Spec.Lorenz => lorenzDerivatives x y z (lorenz p)
  | Spec.Aizawa => aizawaDerivatives x y z (aizawa p) (Num 10)
  | Spec.Rossler => rosslerDerivatives x y z (rossler p)
  | Spec.Chen => chenDerivatives x y z (chen p)
  | Spec.Thomas => thomasDerivatives x y z (thomas p)
  | Spec.Dadras => dadrasDerivatives x y z (dadras p)
  end.

End Rk4.

(** ** The Lorenz-only prototype (part_001) *)

Module Proto.

Record engine : Type := {
  sigma : jsnum;
  rho : jsnum;
  beta : jsnum;
  dt : jsnum;
  x : jsnum;
  y : jsnum;
  z : jsnum;
  pointCount : nat;
  positions : list jsnum
}.

(** [resetAttractor]: the variables it leaves behind.  Its writes to the
    four inputs come last, so the variables are these also when an input is
    missing and the first write throws. *)
Definition resetAttractor (s : engine) : engine :=
  {| sigma := Num 10; rho := Num 28; beta := Num 2.666; dt := Num 0.01;
     x := Num 0.1; y := Num 0; z := Num 0;
     pointCount := 0;
     positions := fill0 (positions s) |}.

Definition computeLorenz (s : engine) : engine :=
  let dx := (sigma s * (y s - x s) * dt s)%js in
  let dy := ((x s * (rho s - z s) - y s) * dt s)%js in
  let dz := ((x s * y s - beta s * z s) * dt s)%js in
  {| sigma := sigma s; rho := rho s; beta := beta s; dt := dt s;
     x := (x s + dx)%js; y := (y s + dy)%js; z := (z s + dz)%js;
     pointCount := pointCount s;
     positions := positions s |}.

(** What a call that can throw leaves behind: the variables as they are
    when it returns, or as they are when the exception leaves it. *)
Inductive outcome : Type :=
  | Returned (s : engine)
  | Thrown (s : engine).

(** [updateParameters]: four reads one after the other;
    [document.getElementById(id).value] throws a TypeError when the page has
    no element with the id. *)
Definition updateParameters (ui : UI) (s : engine) : outcome :=
  match getElementById ui "sigma" with
  | None => Thrown s
  | Some value =>
  let s := {| sigma := ParseFloat.parseFloat value; rho := rho s;
              beta := beta s; dt := dt s; x := x s; y := y s; z := z s;
              pointCount := pointCount s; positions := positions s |} in
  match getElementById ui "rho" with
  | None => Thrown s
  | Some value =>
  let s := {| sigma := sigma s; rho := ParseFloat.parseFloat value;
              beta := beta s; dt := dt s; x := x s; y := y s; z := z s;
              pointCount := pointCount s; positions := positions s |} in
  match getElementById ui "beta" with
  | None => Thrown s
  | Some value =>
  let s := {| sigma := sigma s; rho := rho s;
              beta := ParseFloat.parseFloat value; dt := dt s;
              x := x s; y := y s; z := z s;
              pointCount := pointCount s; positions := positions s |} in
  match getElementById ui "speed" with
  | None => Thrown s
  | Some value =>
  Returned {| sigma := sigma s; rho := rho s; beta := beta s;
              dt := ParseFloat.parseFloat value; x := x s; y := y s; z := z s;
              pointCount := pointCount s; positions := positions s |}
  end end end end.

(** The buffer update of [animate]: that of main.js on [positions] alone,
    with the same capacity. *)
Definition append (s : engine) : engine :=
  let newPoint := (x s, y s, z s) in
  if decide (pointCount s < Main.maxPoints) then
    {| sigma := sigma s; rho := rho s; beta := beta s; dt := dt s;
       x := x s; y := y s; z := z s;
       pointCount := S (pointCount s);
       positions := Main.store3 (positions s) (pointCount s) newPoint |}
  else
    {| sigma := sigma s; rho := rho s; beta := beta s; dt := dt s;
       x := x s; y := y s; z := z s;
       pointCount := pointCount s;
       positions :=
         Main.store3
           (fold_left Main.shift_array (seq 0 (Main.maxPoints - 1))
              (positions s))
           (Main.maxPoints - 1) newPoint |}.

(** One frame: [animate], without the rendering calls.  An exception in
    [updateParameters] ends the frame there. *)
Definition animate (ui : UI) (s : engine) : outcome :=
  match updateParameters ui s with
  | Thrown s' => Thrown s'
  | Returned s' => Returned (append (computeLorenz s'))
  end.

(** The state of the prototype once its four inputs were read. *)
Definition read_parameters (v1 v2 v3 v4 : string) (q : engine) : engine :=
  {| sigma := ParseFloat.parseFloat v1; rho := ParseFloat.parseFloat v2;
     beta := ParseFloat.parseFloat v3; dt := ParseFloat.parseFloat v4;
     x := x q; y := y q; z := z q;
     pointCount := pointCount q; positions := positions q |}.

(** The state the prototype starts in. *)
Definition initial : engine :=
  {| sigma := Num 10; rho := Num 28; beta := Num 2.666; dt := Num 0.01;
     x := Num 0.1; y := Num 0; z := Num 0;
     pointCount := 0;
     positions := replicate (Main.maxPoints * 3) (Num 0) |}.

(** A state of the prototype and a state of main.js that show the same
    point and the same trail. *)
Definition same_view (q : engine) (s : Main.engine) : Prop :=
  (x q, y q, z q) = Main.newPoint s /\
  pointCount q = Main.pointCount s /\
  positions q = Main.positions s.

End Proto.


(** ** Finite values *)

(** [Number.isFinite] *)
Definition isFinite (u : jsnum) : bool :=
  match u with
  | Num _ => true
  | _ => false
  end.

(** ** States to compare steps at *)

(** The state [s] with its state vector replaced by [v]. *)
Definition with_point (v : Vector3) (s : Main.engine) : Main.engine :=
  let '(a, b, c) := v in
  {| Main.x := a; Main.y := b; Main.z := c;
     Main.params := Main.params s;
     Main.currentAttractor := Main.currentAttractor s;
     Main.pointCount := Main.pointCount s;
     Main.positions := Main.positions s;
     Main.colors := Main.colors s |}.

(** The cyclic shift of the coordinates, (x, y, z) to (y, z, x). *)
Definition rotate (v : Vector3) : Vector3 :=
  let '(a, b, c) := v in (b, c, a).

(** The half turn about the z axis, (x, y, z) to (-x, -y, z). *)
Definition reflect (v : Vector3) : Vector3 :=
  let '(a, b, c) := v in (JsNum.neg a, JsNum.neg b, c).

(** * Properties *)

(** ** Numbers *)

Section JsNumFacts.

#[local] Open Scope R_scope.

Lemma jsnum_mul_comm (u v : jsnum) : JsNum.mul u v = JsNum.mul v u.
Proof.
  destruct u as [a | | |], v as [c | | |]; simpl; try reflexivity.
  f_equal. apply Rmult_comm.
Qed.

Lemma jsnum_add_0_r (u : jsnum) : JsNum.add u (Num 0) = u.
Proof. destruct u as [a | | |]; simpl; try reflexivity. f_equal. lra. Qed.

Lemma jsnum_div_Num (a c : R) : c <> 0 -> JsNum.div (Num a) (Num c) = Num (a / c).
Proof.
  intros Hc. unfold JsNum.div.
  destruct (Req_dec_T c 0); [contradiction | reflexivity].
Qed.

End JsNumFacts.

Arguments Main.maxPoints : simpl never.
Arguments JsNum.div : simpl never.
Arguments ParseFloat.parseFloat : simpl never.

(** ** The conversion to a binary format *)

Section BinaryFacts.

#[local] Open Scope R_scope.

Lemma pow2_pos (e : Z) : 0 < powerRZ 2 e.
Proof. apply powerRZ_lt. lra. Qed.

Lemma pow2_le (a c : Z) : (a <= c)%Z -> powerRZ 2 a <= powerRZ 2 c.
Proof.
  intros H. replace c with (a + (c - a))%Z by lia.
  rewrite powerRZ_add by lra.
  assert (1 <= powerRZ 2 (c - a)) as H1.
  { replace (c - a)%Z with (Z.of_nat (Z.to_nat (c - a))) by lia.
    rewrite <- pow_powerRZ. apply pow_R1_Rle. lra. }
  pose proof (pow2_pos a). nra.
Qed.

Lemma pow2_half (e : Z) : powerRZ 2 (e - 1) = powerRZ 2 e / 2.
Proof. unfold Z.sub. rewrite powerRZ_add by lra. simpl. lra. Qed.

(** The search finds the binade of a magnitude that has one in its range. *)
Lemma binade_spec (fuel : nat) (e0 e : Z) (m : R) :
  (e0 - Z.of_nat fuel <= e <= e0)%Z ->
  powerRZ 2 e <= m < powerRZ 2 (e + 1) ->
  Binary.binade fuel e0 m = e.
Proof.
  revert e0. induction fuel as [| f IH]; intros e0 He [Hlo Hhi].
  - simpl. lia.
  - cbn [Binary.binade]. destruct (Rle_dec (powerRZ 2 e0) m) as [H | H].
    + destruct (Z.eq_dec e0 e) as [| Hne]; [done |]. exfalso.
      pose proof (pow2_le (e + 1) e0 ltac:(lia)). lra.
    + apply IH; [| done]. assert (e <> e0) by (intros ->; lra). lia.
Qed.

(** The exponent found is that of a power of two not above the magnitude,
    or the least one. *)
Lemma binade_below (fuel : nat) (e0 : Z) (m : R) :
  powerRZ 2 (Binary.binade fuel e0 m) <= m \/
  Binary.binade fuel e0 m = (e0 - Z.of_nat fuel)%Z.
Proof.
  revert e0. induction fuel as [| f IH]; intros e0.
  - right. simpl. lia.
  - cbn [Binary.binade]. destruct (Rle_dec (powerRZ 2 e0) m) as [H | H].
    + by left.
    + destruct (IH (e0 - 1)%Z) as [H' | H']; [by left | right]. lia.
Qed.

Lemma nearest_even_error (q : R) :
  - (1 / 2) <= IZR (Binary.nearest_even q) - q <= 1 / 2.
Proof.
  unfold Binary.nearest_even. destruct (base_Int_part q) as [H1 H2].
  destruct (Rlt_dec _ _) as [Hd | Hd]; [lra |].
  destruct (Rlt_dec _ _) as [Hd' | Hd']; [rewrite plus_IZR; lra |].
  destruct (Z.even _); rewrite ?plus_IZR; lra.
Qed.

Lemma nearest_even_spec (q : R) (n : Z) :
  Rabs (q - IZR n) < 1 / 2 -> Binary.nearest_even q = n.
Proof.
  intros H. pose proof (nearest_even_error q) as He.
  apply Rabs_def2 in H.
  apply Z.sub_move_0_r, one_IZR_lt1. rewrite minus_IZR. lra.
Qed.

(** The conversion of a magnitude below the overflow threshold is a number
    within half a unit in the last place of it. *)
Lemma round_error (prec emin emax : Z) (a : R) :
  (emin <= emax)%Z ->
  Rabs a < Binary.overflow prec emax ->
  exists v : R,
    Binary.round prec emin emax a = Num v /\
    Rabs (v - a) <= powerRZ 2 (- prec) * Rabs a + powerRZ 2 (emin - prec).
Proof.
  intros Hrange Hov. unfold Binary.round.
  destruct (Rle_dec _ _) as [H | _]; [lra |].
  set (m := Rabs a). set (e := Binary.exponent emin emax m).
  set (ulp := powerRZ 2 (e - (prec - 1))).
  set (n := Binary.nearest_even (m / ulp)).
  assert (0 < ulp) as Hulp by apply pow2_pos.
  assert (0 <= m) as Hm by apply Rabs_pos.
  assert (Rabs (IZR n * ulp - m) <= ulp / 2) as Herr.
  { pose proof (nearest_even_error (m / ulp)) as He. fold n in He.
    replace (IZR n * ulp - m) with ((IZR n - m / ulp) * ulp)
      by (field; lra).
    rewrite Rabs_mult, (Rabs_pos_eq ulp) by lra.
    assert (Rabs (IZR n - m / ulp) <= 1 / 2) by (apply Rabs_le; lra).
    nra. }
  assert (ulp / 2 = powerRZ 2 (e - prec)) as Hhalf.
  { subst ulp. replace (e - prec)%Z with (e - (prec - 1) - 1)%Z by lia.
    by rewrite pow2_half. }
  assert (ulp / 2 <= powerRZ 2 (- prec) * m + powerRZ 2 (emin - prec))
    as Hbound.
  { rewrite Hhalf. pose proof (pow2_pos (- prec)).
    pose proof (pow2_pos (emin - prec)).
    destruct (binade_below (Z.to_nat (emax - emin)) emax m) as [Hb | Hb];
      fold (Binary.exponent emin emax m) in Hb; fold e in Hb.
    - replace (e - prec)%Z with (- prec + e)%Z by lia.
      rewrite powerRZ_add by lra. nra.
    - replace e with emin by lia. nra. }
  eexists. split; [reflexivity |].
  destruct (Rlt_dec a 0) as [Ha | Ha].
  - replace (- (IZR n * ulp) - a) with (- (IZR n * ulp - m))
      by (subst m; rewrite Rabs_left by done; lra).
    rewrite Rabs_Ropp. lra.
  - replace a with m at 1 by (subst m; apply Rabs_pos_eq; lra). lra.
Qed.

(** The conversion of a positive number in the normal range, given its
    binade and the multiple of the unit in the last place nearest to it. *)
Lemma round_nearest (prec emin emax : Z) (a : R) (e n : Z) :
  0 <= a -> a < Binary.overflow prec emax -> (emin <= e <= emax)%Z ->
  powerRZ 2 e <= a < powerRZ 2 (e + 1) ->
  Rabs (a / powerRZ 2 (e - (prec - 1)) - IZR n) < 1 / 2 ->
  Binary.round prec emin emax a = Num (IZR n * powerRZ 2 (e - (prec - 1))).
Proof.
  intros Ha Hov He Hbin Hn. unfold Binary.round.
  rewrite Rabs_pos_eq by done.
  destruct (Rle_dec _ a); [lra |].
  unfold Binary.exponent. rewrite (binade_spec _ _ e) by (done || lia).
  rewrite (nearest_even_spec _ n) by done.
  destruct (Rlt_dec a 0); [lra | done].
Qed.

Lemma overflow_big (prec emax : Z) :
  (0 < prec)%Z /\ (11 <= emax)%Z -> 1000 < Binary.overflow prec emax.
Proof.
  intros H. unfold Binary.overflow.
  pose proof (pow2_le 11 emax ltac:(lia)) as H11.
  pose proof (pow2_le (emax - prec) (emax - 1) ltac:(lia)) as Hp.
  rewrite pow2_half in Hp.
  rewrite powerRZ_add by lra. simpl (powerRZ 2 1). simpl (powerRZ 2 11) in H11.
  lra.
Qed.

(** Zero converts to zero. *)
Lemma round_0 (prec emin emax : Z) :
  (0 < prec)%Z -> Binary.round prec emin emax 0 = Num 0.
Proof.
  intros Hp. unfold Binary.round. rewrite Rabs_R0.
  assert (0 < Binary.overflow prec emax) as Hov.
  { unfold Binary.overflow.
    pose proof (pow2_le (emax - prec) emax ltac:(lia)).
    rewrite powerRZ_add by lra. simpl (powerRZ 2 1).
    pose proof (pow2_pos emax). lra. }
  destruct (Rle_dec _ 0); [lra |].
  rewrite (nearest_even_spec _ 0).
  - destruct (Rlt_dec 0 0); f_equal; lra.
  - unfold Rdiv. rewrite Rmult_0_l, Rminus_0_r, Rabs_R0. lra.
Qed.

(** A number of magnitude 2^128 - 2^103 or more is stored as an infinity. *)
Lemma fround_overflow (a : R) :
  powerRZ 2 128 - powerRZ 2 103 <= Rabs a ->
  Float32.fround (Num a) = JsNum.signed_inf a.
Proof.
  intros H. unfold Float32.fround. cbn [Binary.convert].
  unfold Binary.round, Binary.overflow.
  change (127 + 1)%Z with 128%Z. change (127 - 24)%Z with 103%Z.
  by destruct (Rle_dec _ (Rabs a)).
Qed.

(** 0.09 is stored as 12079596 * 2^-27 = 0.0900000035762787. *)
Lemma fround_0_09 :
  Float32.fround (Num 0.09) = Num (12079596 * powerRZ 2 (-27)).
Proof.
  pose proof (overflow_big 24 127 ltac:(lia)).
  apply (round_nearest 24 (-126) 127 0.09 (-4) 12079596); try lra; try lia.
  - simpl. lra.
  - simpl (powerRZ _ _). apply Rabs_def1; lra.
Qed.

Lemma fround_1 : Float32.fround (Num 1) = Num 1.
Proof.
  pose proof (overflow_big 24 127 ltac:(lia)).
  replace (Num 1) with (Num (8388608 * powerRZ 2 (0 - (24 - 1)))) at 2
    by (f_equal; simpl; lra).
  apply (round_nearest 24 (-126) 127 1 0 8388608); try lra; try lia.
  - simpl. lra.
  - simpl (powerRZ _ _). apply Rabs_def1; lra.
Qed.

Lemma fround_0_5 : Float32.fround (Num 0.5) = Num 0.5.
Proof.
  pose proof (overflow_big 24 127 ltac:(lia)).
  replace (Num 0.5) with (Num (8388608 * powerRZ 2 (-1 - (24 - 1)))) at 2
    by (f_equal; simpl; lra).
  apply (round_nearest 24 (-126) 127 0.5 (-1) 8388608); try lra; try lia.
  - simpl. lra.
  - simpl (powerRZ _ _). apply Rabs_def1; lra.
Qed.

End BinaryFacts.


(** ** Parameter objects *)

Section ParamFacts.

Implicit Types (o : ParamSet) (k key : string) (v : jsnum) (p : Params).

Lemma own_assign_eq o k v : own (assign o k v) k = Some v.
Proof.
  induction o as [| [k' v'] o IH]; simpl.
  - by rewrite String.eqb_refl.
  - destruct (String.eqb k k') eqn:E; simpl; rewrite E; [done | apply IH].
Qed.

Lemma own_assign_ne o k k0 v : k0 <> k -> own (assign o k v) k0 = own o k0.
Proof.
  intros Hne. induction o as [| [k' v'] o IH]; simpl.
  - by apply String.eqb_neq in Hne as ->.
  - destruct (String.eqb_spec k k') as [-> | Hk]; simpl.
    + by apply String.eqb_neq in Hne as ->.
    + destruct (String.eqb k0 k'); [done | apply IH].
Qed.

(** The [forEach] of [updateParametersFromUI]: every enumerated key whose
    input exists receives the parsed text; nothing else changes. *)
Lemma own_update_loop (ui : UI) (name : string) (ks : list string) o k :
  own (fold_left (Main.update_key ui name) ks o) k =
    if decide (k ∈ ks) then
      match getElementById ui (name ++ "-" ++ k)%string with
      | Some value => Some (ParseFloat.parseFloat value)
      | None => own o k
      end
    else own o k.
Proof.
  revert o. induction ks as [| k1 ks IH]; intros o; simpl.
  - destruct (decide (k ∈ [])) as [H | H]; [by apply elem_of_nil in H | done].
  - rewrite IH.
    assert (k <> k1 -> own (Main.update_key ui name o k1) k = own o k) as Hother.
    { intros Hne. unfold Main.update_key.
      destruct (getElementById ui (name ++ "-" ++ k1)%string);
        [by apply own_assign_ne | done]. }
    destruct (decide (k = k1)) as [-> | Hne].
    + rewrite (decide_True (P := k1 ∈ k1 :: ks))
        by (apply elem_of_cons; by left).
      unfold Main.update_key.
      destruct (getElementById ui (name ++ "-" ++ k1)) as [value |] eqn:E.
      * destruct (decide (k1 ∈ ks)); [done | apply own_assign_eq].
      * by destruct (decide (k1 ∈ ks)).
    + rewrite (Hother Hne).
      destruct (decide (k ∈ ks)) as [Hin | Hnin].
      * by rewrite decide_True by (apply elem_of_cons; by right).
      * rewrite decide_False; [done |].
        by intros [? | ?]%elem_of_cons.
Qed.

Lemma params_get_model p (m : Spec.Model) :
  params_get p (Spec.model_id m) = Some (Spec.param_set p m).
Proof. by destruct m. Qed.

Lemma params_get_Some p name o :
  params_get p name = Some o ->
  exists m, name = Spec.model_id m /\ o = Spec.param_set p m.
Proof.
  unfold params_get. intros H.
  destruct (String.eqb_spec name "lorenz") as [-> | _];
    [exists Spec.Lorenz; by injection H as <- |].
  destruct (String.eqb_spec name "aizawa") as [-> | _];
    [exists Spec.Aizawa; by injection H as <- |].
  destruct (String.eqb_spec name "rossler") as [-> | _];
    [exists Spec.Rossler; by injection H as <- |].
  destruct (String.eqb_spec name "chen") as [-> | _];
    [exists Spec.Chen; by injection H as <- |].
  destruct (String.eqb_spec name "thomas") as [-> | _];
    [exists Spec.Thomas; by injection H as <- |].
  destruct (String.eqb_spec name "dadras") as [-> | _];
    [exists Spec.Dadras; by injection H as <- |].
  discriminate.
Qed.

Lemma params_get_None p name : name ∉ models -> params_get p name = None.
Proof.
  intros Hnot. destruct (params_get p name) as [o |] eqn:E; [| done].
  apply params_get_Some in E as (m & -> & _).
  exfalso. apply Hnot. unfold models. rewrite !elem_of_cons.
  destruct m; simpl; tauto.
Qed.

Lemma model_id_models (m : Spec.Model) : Spec.model_id m ∈ models.
Proof. unfold models. rewrite !elem_of_cons. destruct m; simpl; tauto. Qed.

Lemma param_set_put_eq p (m : Spec.Model) o :
  Spec.param_set (params_put p (Spec.model_id m) o) m = o.
Proof. by destruct m. Qed.

Lemma param_set_put_ne p (m m' : Spec.Model) o :
  m <> m' ->
  Spec.param_set (params_put p (Spec.model_id m) o) m' = Spec.param_set p m'.
Proof. by destruct m, m'. Qed.

Lemma params_put_same p (m : Spec.Model) :
  params_put p (Spec.model_id m) (Spec.param_set p m) = p.
Proof. by destruct p, m. Qed.

End ParamFacts.

(** ** [parseFloat] *)

Section ParseFloatFacts.

#[local] Open Scope R_scope.

Lemma parse_overflow_big : 1000000 < ParseFloat.overflow.
Proof.
  unfold ParseFloat.overflow.
  replace 1024%Z with (970 + 54)%Z by lia. rewrite powerRZ_add by lra.
  pose proof (pow2_le 0 970 ltac:(lia)) as H. simpl (powerRZ 2 0) in H.
  simpl (powerRZ 2 54). nra.
Qed.

(** A literal within the binary64 range reads as its value. *)
Lemma value_Finite (m e : Z) (a : R) :
  IZR m * powerRZ 10 e = a -> - 1000000 < a < 1000000 ->
  ParseFloat.value (ParseFloat.Finite m e) = Num a.
Proof.
  intros <- Ha. pose proof parse_overflow_big as Hbig.
  cbn [ParseFloat.value]. cbv zeta.
  destruct (Rle_dec _ _) as [H | H]; [| done].
  assert (Rabs (IZR m * powerRZ 10 e) < 1000000) by (apply Rabs_def1; lra).
  lra.
Qed.

(** Text that starts with a decimal literal never reads as NaN. *)
Lemma value_Finite_not_NaN (m e : Z) :
  ParseFloat.value (ParseFloat.Finite m e) <> NaN.
Proof.
  pose proof parse_overflow_big as Hbig. cbn [ParseFloat.value]. cbv zeta.
  destruct (Rle_dec _ _) as [H | H]; [| done].
  unfold JsNum.signed_inf.
  destruct (Rlt_dec 0 _) as [Hp | Hp]; [done |].
  destruct (Rlt_dec _ 0) as [Hn | Hn]; [done |].
  assert (IZR m * powerRZ 10 e = 0) as Hz by lra.
  rewrite Hz, Rabs_R0 in H. lra.
Qed.

Lemma parseFloat_not_a_number : ParseFloat.parseFloat "not-a-number" = NaN.
Proof. reflexivity. Qed.

Lemma parseFloat_empty : ParseFloat.parseFloat "" = NaN.
Proof. reflexivity. Qed.

Lemma parseFloat_Infinity : ParseFloat.parseFloat " -Infinity" = NInf.
Proof. reflexivity. Qed.

Lemma parseFloat_10 : ParseFloat.parseFloat "10" = Num 10.
Proof.
  unfold ParseFloat.parseFloat.
  change (ParseFloat.scan "10") with (ParseFloat.Finite 10 0).
  apply value_Finite; simpl; lra.
Qed.

Lemma parseFloat_0_01 : ParseFloat.parseFloat "0.01" = Num 0.01.
Proof.
  unfold ParseFloat.parseFloat.
  change (ParseFloat.scan "0.01") with (ParseFloat.Finite 1 (-2)).
  apply value_Finite; simpl; lra.
Qed.

Lemma parseFloat_28 : ParseFloat.parseFloat "28" = Num 28.
Proof.
  unfold ParseFloat.parseFloat.
  change (ParseFloat.scan "28") with (ParseFloat.Finite 28 0).
  apply value_Finite; simpl; lra.
Qed.

Lemma parseFloat_50 : ParseFloat.parseFloat "50" = Num 50.
Proof.
  unfold ParseFloat.parseFloat.
  change (ParseFloat.scan "50") with (ParseFloat.Finite 50 0).
  apply value_Finite; simpl; lra.
Qed.

Lemma parseFloat_2_666 : ParseFloat.parseFloat "2.666" = Num 2.666.
Proof.
  unfold ParseFloat.parseFloat.
  change (ParseFloat.scan "2.666") with (ParseFloat.Finite 2666 (-3)).
  apply value_Finite; simpl; lra.
Qed.

Lemma parseFloat_prefix : ParseFloat.parseFloat "-1.5e2px" = Num (-150).
Proof.
  unfold ParseFloat.parseFloat.
  change (ParseFloat.scan "-1.5e2px") with (ParseFloat.Finite (-15) 1).
  apply value_Finite; simpl; lra.
Qed.

(** What a range slider reads is never NaN to [parseFloat]. *)
Lemma number_not_NaN (text : string) :
  Range.number text <> None -> ParseFloat.parseFloat text <> NaN.
Proof.
  unfold Range.number, Range.parsed, ParseFloat.parseFloat.
  destruct (Range.valid text); [| done].
  destruct (ParseFloat.scan text) as [| minus | m e]; try done.
  intros _. apply value_Finite_not_NaN.
Qed.

(** A literal beyond the binary64 range reads as an infinity. *)
Lemma parseFloat_1e400 : ParseFloat.parseFloat "1e400" = PInf.
Proof.
  unfold ParseFloat.parseFloat.
  change (ParseFloat.scan "1e400") with (ParseFloat.Finite 1 400).
  cbn [ParseFloat.value]. cbv zeta.
  assert (ParseFloat.overflow <= 1 * powerRZ 10 400) as Hbig.
  { unfold ParseFloat.overflow. pose proof (pow2_pos 970).
    assert (powerRZ 2 1024 <= powerRZ 10 400); [| lra].
    replace 1024%Z with (Z.of_nat (Z.to_nat 1024)) by lia.
    replace 400%Z with (Z.of_nat (Z.to_nat 400)) by lia.
    rewrite <- !pow_powerRZ.
    replace (Z.to_nat 1024) with (2 * Z.to_nat 400 + Z.to_nat 224)%nat by lia.
    rewrite pow_add, pow_mult.
    replace (2 ^ Z.to_nat 224) with (2 ^ (Z.to_nat 224) * 1 ^ (Z.to_nat 176))
      by (rewrite pow1; lra).
    replace (10 ^ Z.to_nat 400) with (4 ^ Z.to_nat 400 * (10 / 4) ^ Z.to_nat 400)
      by (rewrite <- Rpow_mult_distr; f_equal; lra).
    replace (2 ^ 2) with 4 by (simpl; lra).
    apply Rmult_le_compat_l; [apply pow_le; lra |].
    replace (Z.to_nat 400) with (Z.to_nat 224 + Z.to_nat 176)%nat by lia.
    rewrite pow_add.
    apply Rmult_le_compat; try (apply pow_le; lra); apply pow_incr; lra. }
  pose proof (powerRZ_lt 10 400 ltac:(lra)) as Hpos.
  destruct (Rle_dec _ _) as [H | H].
  - unfold JsNum.signed_inf.
    destruct (Rlt_dec 0 _) as [Hp | Hp]; [done | lra].
  - exfalso. apply H. rewrite Rabs_pos_eq; lra.
Qed.

End ParseFloatFacts.

(** ** Range inputs *)

Section RangeFacts.

#[local] Open Scope Q_scope.

(** Whatever is assigned to a slider whose [min] is not above its [max], the
    number it holds is within the two. *)
Lemma constrain_bounds (sl : Range.slider) (v : Q) :
  Range.minimum sl <= Range.maximum sl ->
  Range.minimum sl <= Range.constrain sl v <= Range.maximum sl.
Proof.
  intros Hmm. unfold Range.constrain.
  set (mn := Range.minimum sl) in *. set (mx := Range.maximum sl) in *.
  set (st := Range.granularity sl).
  assert (0 < st) as Hst.
  { subst st. unfold Range.granularity.
    destruct (Range.parsed _) as [q |]; [| reflexivity].
    destruct (Qle_bool q 0) eqn:E; [reflexivity |].
    apply Qnot_le_lt. intros H. apply Qle_bool_iff in H. congruence. }
  rewrite (proj2 (Qle_bool_iff mn mx) Hmm). cbn [andb].
  set (v1 := if negb (Qle_bool mn v) then mn
             else if negb (Qle_bool v mx) then mx else v).
  assert (mn <= v1 <= mx) as [Hv1 Hv2].
  { subst v1. destruct (Qle_bool mn v) eqn:E1; cbn [negb]; [| Lqa.lra].
    apply Qle_bool_iff in E1.
    destruct (Qle_bool v mx) eqn:E2; cbn [negb]; [| Lqa.lra].
    apply Qle_bool_iff in E2. Lqa.lra. }
  clearbody v1.
  assert (forall t : Q, 0 <= t -> 0 <= inject_Z (Qfloor t) * st) as Hfloor.
  { intros t Ht. apply Qmult_le_0_compat; [| Lqa.lra].
    change 0 with (inject_Z 0). rewrite <- Zle_Qle.
    change 0%Z with (Qfloor 0). by apply Qfloor_resp_le. }
  assert (0 <= (v1 - mn) / st) as Hq1.
  { apply Qle_shift_div_l; [exact Hst | Lqa.lra]. }
  assert (0 <= (mx - mn) / st) as Hq2.
  { apply Qle_shift_div_l; [exact Hst | Lqa.lra]. }
  pose proof (Hfloor _ Hq2) as H0.
  pose proof (Qfloor_le ((mx - mn) / st)) as Hle.
  assert (inject_Z (Qfloor ((mx - mn) / st)) * st <= (mx - mn) / st * st)
    as H1.
  { apply Qmult_le_compat_r; [exact Hle | Lqa.lra]. }
  assert ((mx - mn) / st * st == mx - mn) as Heq by (field; Lqa.lra).
  rewrite Heq in H1.
  assert (0 <= inject_Z (Qfloor ((v1 - mn) / st + (1 # 2))) * st) as H2.
  { apply Hfloor. set (t := (v1 - mn) / st) in *. clearbody t. Lqa.lra. }
  set (a1 := inject_Z (Qfloor ((v1 - mn) / st + (1 # 2))) * st) in *.
  set (a2 := inject_Z (Qfloor ((mx - mn) / st)) * st) in *.
  clearbody a1 a2.
  destruct (Qle_bool (mn + a1) mx) eqn:E; cbn [negb].
  - apply Qle_bool_iff in E. split; [Lqa.lra | exact E].
  - split; Lqa.lra.
Qed.

Lemma assigned_bounds (sl : Range.slider) (text : string) :
  Range.minimum sl <= Range.maximum sl ->
  Range.minimum sl <= Range.assigned sl text <= Range.maximum sl.
Proof. apply constrain_bounds. Qed.

End RangeFacts.

(** ** The capacity *)

Lemma maxPoints_pos : 0 < Main.maxPoints.
Proof. unfold Main.maxPoints. lia. Qed.

Lemma maxPoints_value : Z.of_nat Main.maxPoints = 10000%Z.
Proof. unfold Main.maxPoints. lia. Qed.

#[global] Opaque Main.maxPoints.

(** ** Typed arrays and the shifting loop *)

Section BufferFacts.

Import Main.

Implicit Types (a : list jsnum) (i j n : nat) (v : Vector3).


Lemma read_lookup a i u : a !! i = Some u -> read a i = u.
Proof. unfold read. by intros ->. Qed.

Lemma read_insert_eq a i u : i < length a -> read (<[i := u]> a) i = u.
Proof. intros H. apply read_lookup. by apply list_lookup_insert_eq. Qed.

Lemma read_insert_ne a i j u : i <> j -> read (<[i := u]> a) j = read a j.
Proof. intros H. unfold read. by rewrite list_lookup_insert_ne. Qed.

Lemma length_store3 a i v : length (store3 a i v) = length a.
Proof. destruct v as [[u1 u2] u3]. unfold store3. by rewrite !length_insert. Qed.

Lemma slot_store3_eq a i v :
  i * 3 + 2 < length a -> slot (store3 a i v) i = stored v.
Proof.
  intros H. destruct v as [[u1 u2] u3]. unfold slot, store3, stored.
  f_equal; [f_equal |].
  - by rewrite !read_insert_ne, read_insert_eq by lia.
  - by rewrite read_insert_ne, read_insert_eq
      by (rewrite ?length_insert; lia).
  - by rewrite read_insert_eq by (rewrite !length_insert; lia).
Qed.

Lemma slot_store3_ne a i j v : i <> j -> slot (store3 a i v) j = slot a j.
Proof.
  intros H. destruct v as [[u1 u2] u3]. unfold slot, store3.
  by rewrite !read_insert_ne by lia.
Qed.

Lemma length_shift_array a i : length (shift_array a i) = length a.
Proof. unfold shift_array. by rewrite !length_insert. Qed.

(** One iteration copies the three cells of slot [i + 1] into slot [i]. *)
Lemma read_shift_array a i j :
  (i + 1) * 3 + 2 < length a ->
  read (shift_array a i) j =
    if decide (i * 3 <= j < i * 3 + 3) then read a (j + 3) else read a j.
Proof.
  intros Hlen. unfold shift_array.
  destruct (decide (i * 3 <= j < i * 3 + 3)) as [Hin | Hout].
  - assert (j = i * 3 \/ j = i * 3 + 1 \/ j = i * 3 + 2) as [-> | [-> | ->]]
      by lia.
    + rewrite !read_insert_ne, read_insert_eq by lia. f_equal. lia.
    + rewrite read_insert_ne, read_insert_eq by (rewrite ?length_insert; lia).
      rewrite read_insert_ne by lia. f_equal. lia.
    + rewrite read_insert_eq by (rewrite !length_insert; lia).
      rewrite !read_insert_ne by lia. f_equal. lia.
  - by rewrite !read_insert_ne by lia.
Qed.

Lemma shifted_S n a : shifted (S n) a = shift_array (shifted n a) n.
Proof. unfold shifted. by rewrite seq_S, fold_left_app. Qed.

Lemma length_shifted n a : length (shifted n a) = length a.
Proof.
  induction n as [| n IH]; [done |].
  by rewrite shifted_S, length_shift_array.
Qed.

Lemma read_shifted n a j :
  n * 3 + 2 < length a ->
  read (shifted n a) j = if decide (j < n * 3) then read a (j + 3) else read a j.
Proof.
  revert j. induction n as [| n IH]; intros j Hlen.
  - by destruct (decide (j < 0 * 3)); [lia |].
  - rewrite shifted_S, read_shift_array by (rewrite length_shifted; lia).
    rewrite !IH by lia.
    repeat case_decide; try lia; reflexivity.
Qed.

Lemma shift_loop_shifted (p c : list jsnum) :
  shift_loop (p, c) = (shifted (maxPoints - 1) p, shifted (maxPoints - 1) c).
Proof.
  unfold shift_loop, shifted. generalize (seq 0 (maxPoints - 1)) as l.
  intros l. revert p c. induction l as [| i l IH]; intros p c; [done |].
  simpl. apply IH.
Qed.

Lemma slot_shifted n a i :
  length a = S n * 3 ->
  slot (shifted n a) i = if decide (i < n) then slot a (i + 1) else slot a i.
Proof.
  intros Hlen. unfold slot.
  rewrite 3!(read_shifted n a) by lia.
  destruct (decide (i < n)).
  - rewrite !decide_True by lia. f_equal; [f_equal |]; f_equal; lia.
  - by rewrite !decide_False by lia.
Qed.

End BufferFacts.

(** ** The frame: what each part of [animate] touches *)

Section FrameFacts.

Import Main.

Implicit Types (s : engine) (ui : UI).

Lemma update_preserves ui s :
  let s' := updateParametersFromUI ui s in
  newPoint s' = newPoint s /\ currentAttractor s' = currentAttractor s /\
  pointCount s' = pointCount s /\ positions s' = positions s /\
  colors s' = colors s.
Proof.
  unfold updateParametersFromUI.
  by destruct (params_get (params s) (currentAttractor s)).
Qed.

Lemma compute_preserves s :
  let s' := computeNextPoint s in
  params s' = params s /\ currentAttractor s' = currentAttractor s /\
  pointCount s' = pointCount s /\ positions s' = positions s /\
  colors s' = colors s.
Proof. unfold computeNextPoint. by destruct (deltas s) as [[dx dy] dz]. Qed.

Lemma newPoint_compute s :
  newPoint (computeNextPoint s) = Spec.vadd (newPoint s) (deltas s).
Proof. unfold computeNextPoint. by destruct (deltas s) as [[dx dy] dz]. Qed.

Lemma append_unfold s :
  append s =
    if decide (pointCount s < maxPoints) then
      {| x := x s; y := y s; z := z s;
         params := params s;
         currentAttractor := currentAttractor s;
         pointCount := S (pointCount s);
         positions := store3 (positions s) (pointCount s) (newPoint s);
         colors := store3 (colors s) (pointCount s)
                     (color_vector (getColor (JsNum.of_nat (pointCount s)))) |}
    else
      {| x := x s; y := y s; z := z s;
         params := params s;
         currentAttractor := currentAttractor s;
         pointCount := pointCount s;
         positions := store3 (shifted (maxPoints - 1) (positions s))
                        (maxPoints - 1) (newPoint s);
         colors := store3 (shifted (maxPoints - 1) (colors s))
                     (maxPoints - 1)
                     (color_vector (getColor (JsNum.of_nat (maxPoints - 1)))) |}.
Proof. unfold append. by rewrite shift_loop_shifted. Qed.

Lemma append_preserves s :
  let s' := append s in
  newPoint s' = newPoint s /\ params s' = params s /\
  currentAttractor s' = currentAttractor s.
Proof. rewrite append_unfold. by case_decide. Qed.

Lemma pointCount_append s :
  pointCount (append s) =
    if decide (pointCount s < maxPoints) then S (pointCount s)
    else pointCount s.
Proof. rewrite append_unfold. by case_decide. Qed.

Lemma allocated_append s : allocated s -> allocated (append s).
Proof.
  intros [Hp Hc]. rewrite append_unfold. unfold allocated.
  case_decide; cbn [positions colors];
    by rewrite !length_store3, ?length_shifted.
Qed.

Lemma newPoint_animate ui s :
  newPoint (animate ui s) =
    newPoint (computeNextPoint (updateParametersFromUI ui s)).
Proof. unfold animate. apply append_preserves. Qed.

Lemma params_animate ui s :
  params (animate ui s) = params (updateParametersFromUI ui s).
Proof.
  unfold animate.
  destruct (append_preserves (computeNextPoint (updateParametersFromUI ui s)))
    as (_ & -> & _).
  apply compute_preserves.
Qed.

Lemma currentAttractor_animate ui s :
  currentAttractor (animate ui s) = currentAttractor s.
Proof.
  unfold animate.
  destruct (append_preserves (computeNextPoint (updateParametersFromUI ui s)))
    as (_ & _ & ->).
  destruct (compute_preserves (updateParametersFromUI ui s)) as (_ & -> & _).
  apply update_preserves.
Qed.

Lemma pointCount_animate ui s :
  pointCount (animate ui s) =
    if decide (pointCount s < maxPoints) then S (pointCount s)
    else pointCount s.
Proof.
  unfold animate. rewrite pointCount_append.
  destruct (compute_preserves (updateParametersFromUI ui s))
    as (_ & _ & -> & _).
  by destruct (update_preserves ui s) as (_ & _ & -> & _).
Qed.

Lemma allocated_animate ui s : allocated s -> allocated (animate ui s).
Proof.
  intros [Hp Hc]. unfold animate. apply allocated_append. unfold allocated.
  destruct (compute_preserves (updateParametersFromUI ui s))
    as (_ & _ & _ & -> & ->).
  by destruct (update_preserves ui s) as (_ & _ & _ & -> & ->).
Qed.

Lemma allocated_initial : allocated initial.
Proof. split; apply length_replicate. Qed.

Lemma allocated_reset s : allocated s -> allocated (resetAttractor s).
Proof.
  intros [Hp Hc]. split; simpl; unfold fill0; by rewrite length_replicate.
Qed.

Lemma run_snoc (uis : list UI) ui s :
  run (uis ++ [ui]) s = animate ui (run uis s).
Proof. unfold run. by rewrite fold_left_app. Qed.

Lemma allocated_run (uis : list UI) s : allocated s -> allocated (run uis s).
Proof.
  revert s. induction uis as [| ui uis IH]; intros s Hs; [done |].
  apply IH. by apply allocated_animate.
Qed.

(** The live count after a number of frames. *)
Lemma pointCount_run (uis : list UI) s :
  pointCount s <= maxPoints ->
  pointCount (run uis s) = Nat.min (pointCount s + length uis) maxPoints.
Proof.
  revert s. induction uis as [| ui uis IH]; intros s Hs; simpl.
  - lia.
  - rewrite IH; rewrite pointCount_animate; case_decide; lia.
Qed.

(** Every reachable state has its buffers allocated and a live count
    within the capacity. *)
Lemma reachable_invariant s :
  reachable s -> allocated s /\ pointCount s <= maxPoints.
Proof.
  induction 1 as [| ui s _ [IHa IHn] | s _ [IHa IHn] | type s _ [IHa IHn]].
  - split; [apply allocated_initial | simpl; lia].
  - split; [by apply allocated_animate |].
    rewrite pointCount_animate. case_decide; lia.
  - split; [by apply allocated_reset | simpl; lia].
  - split; [| simpl; lia].
    destruct IHa as [Hp Hc].
    split; simpl; unfold fill0; by rewrite length_replicate.
Qed.

End FrameFacts.

(** C7: counted from a reset, the live count never exceeds the capacity,
    and equals it from the [maxPoints]-th frame on; a frame below capacity
    adds exactly one to it, a frame at capacity leaves it fixed. *)
Theorem buffer_bound (uis : list UI) (s0 : Main.engine) :
  let s := Main.run uis (Main.resetAttractor s0) in
  Main.pointCount s <= Main.maxPoints /\
  (Main.maxPoints <= length uis -> Main.pointCount s = Main.maxPoints) /\
  (forall ui, Main.pointCount s < Main.maxPoints ->
     Main.pointCount (Main.animate ui s) = S (Main.pointCount s)) /\
  (forall ui, Main.pointCount s = Main.maxPoints ->
     Main.pointCount (Main.animate ui s) = Main.maxPoints).
Proof.
  intros s. subst s. rewrite pointCount_run by (simpl; lia). simpl.
  repeat split; [lia | lia | |].
  - intros ui H. rewrite pointCount_animate, pointCount_run by (simpl; lia).
    simpl. by rewrite decide_True.
  - intros ui H. rewrite pointCount_animate, pointCount_run by (simpl; lia).
    simpl. rewrite decide_False; lia.
Qed.

(** ** The trail as a sliding window *)

Section TrailFacts.

Import Main.

Implicit Types (s : engine) (ui : UI).

Lemma length_trail s : length (trail s) = pointCount s.
Proof. unfold trail. by rewrite length_map, length_seq. Qed.

(** Below capacity a frame adds its point after the live ones. *)
Lemma trail_append_below s :
  allocated s -> pointCount s < maxPoints ->
  trail (append s) = trail s ++ [stored (newPoint s)].
Proof.
  intros [Hp _] Hlt. rewrite append_unfold, decide_True by done.
  unfold trail. cbn [pointCount positions].
  rewrite seq_S, map_app. cbn [map]. f_equal.
  - apply map_ext_in. intros i Hi%in_seq. apply slot_store3_ne. lia.
  - rewrite slot_store3_eq; [done | lia].
Qed.

(** At capacity a frame drops the oldest point and adds its own last. *)
Lemma trail_append_full s :
  allocated s -> pointCount s = maxPoints ->
  trail (append s) = drop 1 (trail s) ++ [stored (newPoint s)].
Proof.
  intros [Hp _] Hfull. pose proof maxPoints_pos as Hpos.
  rewrite append_unfold, decide_False by lia.
  unfold trail. cbn [pointCount positions]. rewrite Hfull. clear Hfull.
  set (cap := maxPoints) in *. clearbody cap.
  destruct cap as [| c]; [lia |].
  replace (S c - 1) with c by lia.
  rewrite seq_S at 1. rewrite map_app. cbn [map seq drop plus]. f_equal.
  - rewrite <- seq_shift, map_map. apply map_ext_in. intros i Hi%in_seq.
    rewrite slot_store3_ne by lia.
    rewrite slot_shifted by done. rewrite decide_True by lia.
    f_equal. lia.
  - rewrite slot_store3_eq; [done |].
    rewrite length_shifted. lia.
Qed.

Lemma trail_animate ui s :
  allocated s -> pointCount s <= maxPoints ->
  trail (animate ui s) =
    drop (S (pointCount s) - maxPoints) (trail s)
      ++ [stored (newPoint (animate ui s))].
Proof.
  intros Halloc Hle. rewrite newPoint_animate. unfold animate.
  set (s1 := computeNextPoint (updateParametersFromUI ui s)).
  assert (pointCount s1 = pointCount s /\ positions s1 = positions s /\
          colors s1 = colors s) as (Hn & Hp & Hc).
  { subst s1.
    destruct (compute_preserves (updateParametersFromUI ui s))
      as (_ & _ & -> & -> & ->).
    by destruct (update_preserves ui s) as (_ & _ & -> & -> & ->). }
  assert (allocated s1) as Halloc1 by (unfold allocated; by rewrite Hp, Hc).
  assert (trail s1 = trail s) as Ht by (unfold trail; by rewrite Hn, Hp).
  destruct (decide (pointCount s < maxPoints)) as [Hlt | Hge].
  - rewrite trail_append_below, Ht by (done || lia).
    by replace (S (pointCount s) - maxPoints) with 0 by lia.
  - rewrite trail_append_full, Ht by (done || lia).
    by replace (S (pointCount s) - maxPoints) with 1 by lia.
Qed.

Lemma length_trajectory (uis : list UI) s :
  length (trajectory uis s) = length uis.
Proof.
  revert s. induction uis as [| ui uis IH]; intros s; simpl; [done |].
  by rewrite IH.
Qed.

(** After any number of frames the trail is the last [maxPoints] points
    of what it held followed by the trajectory since then, as stored. *)
Lemma trail_run (uis : list UI) s :
  allocated s -> pointCount s <= maxPoints ->
  trail (run uis s) =
    drop (pointCount s + length uis - maxPoints)
      (trail s ++ map stored (trajectory uis s)).
Proof.
  revert s. induction uis as [| ui uis IH]; intros s Halloc Hle.
  - simpl. rewrite app_nil_r.
    by replace (pointCount s + 0 - maxPoints) with 0 by lia.
  - cbn [run fold_left trajectory map]. fold (run uis (animate ui s)).
    pose proof (pointCount_animate ui s) as Hn.
    pose proof (length_trail s) as Hlen.
    rewrite IH by (by apply allocated_animate || (case_decide; lia)).
    rewrite trail_animate by done.
    rewrite <- app_assoc. cbn [app length].
    set (np := stored (newPoint (animate ui s))) in *.
    set (T := map stored (trajectory uis (animate ui s))).
    destruct (decide (pointCount s < maxPoints)) as [Hlt | Hge].
    + replace (S (pointCount s) - maxPoints) with 0 by lia.
      rewrite Hn. cbn [drop]. f_equal. lia.
    + assert (pointCount s = maxPoints) as Hfull by lia.
      replace (S (pointCount s) - maxPoints) with 1 by lia.
      rewrite Hn, Hfull.
      replace (maxPoints + S (length uis) - maxPoints)
        with (1 + length uis) by lia.
      replace (maxPoints + length uis - maxPoints) with (length uis) by lia.
      rewrite <- drop_drop. f_equal.
      pose proof maxPoints_pos.
      destruct (trail s) as [| v t]; [simpl in Hlen; lia | done].
Qed.

(** When the buffer has just filled, slot 0 holds the first point. *)
Lemma first_slot_after_fill ui (uis : list UI) s0 :
  allocated s0 -> length (ui :: uis) = maxPoints ->
  slot (positions (run (ui :: uis) (resetAttractor s0))) 0 =
    stored (newPoint (animate ui (resetAttractor s0))).
Proof.
  intros Halloc Hlen. pose proof maxPoints_pos as Hpos.
  pose proof (trail_run (ui :: uis) (resetAttractor s0)
                (allocated_reset s0 Halloc) ltac:(simpl; lia)) as Htrail.
  pose proof (pointCount_run (ui :: uis) (resetAttractor s0)
                ltac:(simpl; lia)) as Hcount.
  cbn [pointCount resetAttractor updateUIFromParams] in Htrail, Hcount.
  rewrite Hlen in Htrail, Hcount.
  rewrite Nat.add_0_l, Nat.sub_diag in Htrail. rewrite Nat.add_0_l in Hcount.
  rewrite Nat.min_id in Hcount.
  change (trail (resetAttractor s0)) with (@nil Vector3) in Htrail.
  cbn [drop app trajectory map] in Htrail.
  unfold trail in Htrail. rewrite Hcount in Htrail.
  set (cap := maxPoints) in *. clearbody cap.
  destruct cap as [| n]; [lia |]. cbn [seq map] in Htrail.
  apply (f_equal head) in Htrail. cbn [head] in Htrail. congruence.
Qed.

Lemma reset_initial : resetAttractor initial = initial.
Proof.
  unfold resetAttractor, updateUIFromParams, initial, fill0.
  cbn [positions colors params currentAttractor].
  by rewrite !length_replicate.
Qed.

Lemma replicate_maxPoints {A : Type} (a : A) :
  replicate maxPoints a = a :: replicate (maxPoints - 1) a.
Proof.
  pose proof maxPoints_pos as Hpos.
  destruct maxPoints as [| n]; [lia |]. simpl. by rewrite Nat.sub_0_r.
Qed.

Lemma pointCount_at_capacity : pointCount at_capacity = maxPoints.
Proof.
  unfold at_capacity. rewrite pointCount_run by (simpl; lia).
  rewrite length_replicate.
  cbn [pointCount resetAttractor updateUIFromParams]. lia.
Qed.

End TrailFacts.

(** C6, as the code has it: the trail is kept in a [Float32Array], so it
    holds the points as stored, converted to binary32.  Counted from a reset,
    the trail holds the conversions of the most recent [maxPoints] points of
    the trajectory, oldest first; once the buffer is full a frame evicts
    exactly the oldest point and appends the conversion of its own; and
    after exactly [maxPoints] frames slot 0 holds the conversion of the
    result of the first frame. *)
Theorem fifo_eviction (uis : list UI) (s0 : Main.engine) :
  Main.allocated s0 ->
  let s := Main.run uis (Main.resetAttractor s0) in
  let T := map stored (Main.trajectory uis (Main.resetAttractor s0)) in
  Main.trail s = drop (length T - Main.maxPoints) T /\
  (forall ui, Main.pointCount s = Main.maxPoints ->
     Main.trail (Main.animate ui s) =
       drop 1 (Main.trail s) ++ [stored (Main.newPoint (Main.animate ui s))]) /\
  (length uis = Main.maxPoints ->
     Main.pointCount s = Main.maxPoints /\
     forall ui uis', uis = ui :: uis' ->
       Main.slot (Main.positions s) 0 =
         stored (Main.newPoint (Main.animate ui (Main.resetAttractor s0)))).
Proof.
  intros Halloc s T.
  assert (Main.allocated (Main.resetAttractor s0)) as Hr
    by by apply allocated_reset.
  assert (Main.trail s = drop (length T - Main.maxPoints) T) as Htrail.
  { subst s T. rewrite trail_run by (done || (simpl; lia)).
    by rewrite length_map, length_trajectory. }
  assert (Main.pointCount s = Nat.min (length uis) Main.maxPoints) as Hcount.
  { subst s. by rewrite pointCount_run by (simpl; lia). }
  split; [done |]. split.
  - intros ui Hfull. rewrite trail_animate by (by apply allocated_run || lia).
    by replace (S (Main.pointCount s) - Main.maxPoints) with 1 by lia.
  - intros Hlen. split; [lia |]. intros ui uis' ->.
    by apply first_slot_after_fill.
Qed.

Lemma fifo_eviction_witness :
  Main.allocated Main.initial /\
  Main.pointCount Main.at_capacity = Main.maxPoints /\
  Main.trail (Main.animate Main.created_page Main.at_capacity) =
    drop 1 (Main.trail Main.at_capacity)
      ++ [stored (Main.newPoint
                    (Main.animate Main.created_page Main.at_capacity))].
Proof.
  assert (Main.allocated Main.initial) as Halloc
    by (split; apply length_replicate).
  split; [exact Halloc |]. split; [exact pointCount_at_capacity |].
  exact (proj1 (proj2 (fifo_eviction
                         (replicate Main.maxPoints Main.created_page)
                         Main.initial Halloc))
           Main.created_page pointCount_at_capacity).
Defined.

(** ** Colours *)

Section ColorFacts.

Import Main.

#[local] Open Scope R_scope.

Implicit Types (s : engine) (ui : UI).

Lemma INR_maxPoints : INR maxPoints = 10000.
Proof. rewrite INR_IZR_INZ, maxPoints_value. reflexivity. Qed.

(** The colour of a finite index, as three real channels. *)
Lemma getColor_Num (t : R) :
  getColor (Num t) =
    let phi := t / INR maxPoints * PI * 2 in
    {| r := Num (Rtrigo_def.sin phi * 0.5 + 0.5);
       g := Num (Rtrigo_def.sin (phi + 2 * PI / 3) * 0.5 + 0.5);
       b := Num (Rtrigo_def.sin (phi + 4 * PI / 3) * 0.5 + 0.5) |}.
Proof.
  assert (INR maxPoints <> 0) as Hcap by (rewrite INR_maxPoints; lra).
  unfold getColor, JsNum.of_nat, JsNum.PI.
  rewrite (jsnum_div_Num t) by done. cbn [JsNum.mul].
  rewrite !jsnum_div_Num by lra. reflexivity.
Qed.

(** The colour a frame leaves in each slot. *)
Lemma slot_colors_animate ui s (i : nat) :
  allocated s -> (pointCount s <= maxPoints)%nat ->
  (i < pointCount (animate ui s))%nat ->
  slot (colors (animate ui s)) i =
    if decide (pointCount s < maxPoints)%nat then
      if decide (i = pointCount s)
      then stored (color_vector (getColor (JsNum.of_nat (pointCount s))))
      else slot (colors s) i
    else
      if decide (i = maxPoints - 1)%nat
      then stored (color_vector (getColor (JsNum.of_nat (maxPoints - 1))))
      else slot (colors s) (i + 1).
Proof.
  intros [_ Hc] Hle. rewrite pointCount_animate. pose proof maxPoints_pos.
  unfold animate.
  set (s1 := computeNextPoint (updateParametersFromUI ui s)).
  assert (pointCount s1 = pointCount s /\ colors s1 = colors s) as (Hn & Hc1).
  { subst s1.
    destruct (compute_preserves (updateParametersFromUI ui s))
      as (_ & _ & -> & _ & ->).
    by destruct (update_preserves ui s) as (_ & _ & -> & _ & ->). }
  rewrite append_unfold, Hn, Hc1.
  destruct (decide (pointCount s < maxPoints)%nat) as [Hlt | Hge];
    cbn [colors]; intros Hi.
  - destruct (decide (i = pointCount s)) as [-> | Hne].
    + rewrite slot_store3_eq; [done | lia].
    + rewrite slot_store3_ne; [done | lia].
  - destruct (decide (i = maxPoints - 1)%nat) as [-> | Hne].
    + rewrite slot_store3_eq; [done |]. rewrite length_shifted. lia.
    + rewrite slot_store3_ne by lia.
      rewrite slot_shifted by (rewrite Hc; lia).
      rewrite decide_True by lia. reflexivity.
Qed.

(** Every live point keeps the colour it was appended with: after [e]
    evictions slot [i] holds the colour of index [i + e], which stops at
    [maxPoints - 1], the index every point appended at capacity gets. *)
Lemma slot_colors_run (uis : list UI) s0 (i : nat) :
  allocated s0 ->
  let s := run uis (resetAttractor s0) in
  (i < pointCount s)%nat ->
  slot (colors s) i =
    stored
      (color_vector
         (getColor (JsNum.of_nat
            (Nat.min (i + (length uis - maxPoints)) (maxPoints - 1))))).
Proof.
  intros Halloc. revert i.
  induction uis as [| ui uis IH] using rev_ind; intros i s Hi.
  - subst s. simpl in Hi. lia.
  - subst s. rewrite run_snoc in *.
    set (s := run uis (resetAttractor s0)) in *.
    assert (pointCount s = Nat.min (length uis) maxPoints) as Hcount.
    { subst s. by rewrite pointCount_run by (simpl; lia). }
    assert (allocated s) as Hs
      by (subst s; by apply allocated_run, allocated_reset).
    rewrite slot_colors_animate by (done || lia).
    rewrite pointCount_animate in Hi. rewrite length_app. cbn [length].
    pose proof maxPoints_pos.
    destruct (decide (pointCount s < maxPoints)%nat) as [Hlt | Hge].
    + destruct (decide (i = pointCount s)) as [-> | Hne].
      * do 4 f_equal. lia.
      * rewrite IH by lia. do 4 f_equal. lia.
    + destruct (decide (i = maxPoints - 1)%nat) as [-> | Hne].
      * do 4 f_equal. lia.
      * rewrite IH by lia. do 4 f_equal. lia.
Qed.

Lemma stored_red (c c' : Color) :
  stored (color_vector c) = color_vector c' -> Float32.fround (r c) = r c'.
Proof.
  destruct c, c'. unfold stored, color_vector. cbn. intros H. by injection H.
Qed.

Lemma stored_red_stored (c c' : Color) :
  stored (color_vector c) = stored (color_vector c') ->
  Float32.fround (r c) = Float32.fround (r c').
Proof.
  destruct c, c'. unfold stored, color_vector. cbn. intros H. by injection H.
Qed.

Lemma quarter_value : Z.of_nat quarter = 2500%Z.
Proof. unfold quarter. lia. Qed.

(** The red channel of the colour of index 0 and of a quarter of the
    capacity, computed and as stored. *)
Lemma red_of_first :
  r (getColor (JsNum.of_nat 0)) = Num 0.5 /\
  Float32.fround (r (getColor (JsNum.of_nat 0))) = Num 0.5.
Proof.
  assert (r (getColor (JsNum.of_nat 0)) = Num 0.5) as H.
  { unfold JsNum.of_nat. rewrite getColor_Num. cbv zeta. cbn [r INR].
    rewrite INR_maxPoints.
    replace (0 / 10000 * PI * 2) with 0 by lra. rewrite sin_0.
    f_equal. lra. }
  split; [exact H |]. rewrite H. apply fround_0_5.
Qed.

Lemma red_of_quarter :
  Float32.fround (r (getColor (JsNum.of_nat quarter))) = Num 1.
Proof.
  unfold JsNum.of_nat. rewrite getColor_Num. cbv zeta. cbn [r].
  rewrite INR_maxPoints, INR_IZR_INZ, quarter_value.
  replace (2500 / 10000 * PI * 2) with (PI / 2) by lra. rewrite sin_PI2.
  replace (1 * 0.5 + 0.5) with 1 by lra. apply fround_1.
Qed.

End ColorFacts.

#[global] Opaque Main.quarter.

(** C8, as the code has it: a live point keeps the colour it was appended
    with, as the [Float32Array] stores it.  Counted from a reset, slot [i]
    holds the binary32 conversion of the colour of index [i + e], capped at
    [maxPoints - 1], where [e] is the number of frames run at capacity; so it
    holds the conversion of the colour of [i] as long as nothing was evicted,
    and at all times in the newest slot [maxPoints - 1]. *)
Theorem slot_color_travels (uis : list UI) (s0 : Main.engine) (i : nat) :
  Main.allocated s0 ->
  let s := Main.run uis (Main.resetAttractor s0) in
  i < Main.pointCount s ->
  Main.slot (Main.colors s) i =
    stored
      (Main.color_vector
         (Main.getColor (JsNum.of_nat
            (Nat.min (i + (length uis - Main.maxPoints))
               (Main.maxPoints - 1))))) /\
  (length uis <= Main.maxPoints ->
     Main.slot (Main.colors s) i =
       stored (Main.color_vector (Main.getColor (JsNum.of_nat i)))) /\
  (i = Main.maxPoints - 1 ->
     Main.slot (Main.colors s) i =
       stored (Main.color_vector (Main.getColor (JsNum.of_nat i)))).
Proof.
  intros Halloc s Hi.
  assert (Main.pointCount s = Nat.min (length uis) Main.maxPoints) as Hcount.
  { subst s. by rewrite pointCount_run by (simpl; lia). }
  pose proof (slot_colors_run uis s0 i Halloc Hi) as Hcol. fold s in Hcol.
  split; [done |]. split; intros H; rewrite Hcol; do 4 f_equal; lia.
Qed.

Lemma slot_color_travels_witness :
  Main.allocated Main.initial /\
  Main.maxPoints - 2 < Main.pointCount Main.after_first_eviction /\
  Main.slot (Main.colors Main.after_first_eviction) (Main.maxPoints - 2) =
    stored
      (Main.color_vector
         (Main.getColor (JsNum.of_nat
            (Nat.min
               (Main.maxPoints - 2
                  + (length Main.frames_past_capacity - Main.maxPoints))
               (Main.maxPoints - 1))))).
Proof.
  assert (Main.allocated Main.initial) as Halloc
    by (split; apply length_replicate).
  assert (Main.maxPoints - 2 < Main.pointCount Main.after_first_eviction)
    as Hi.
  { unfold Main.after_first_eviction, Main.frames_past_capacity.
    rewrite pointCount_run by (simpl; lia). rewrite length_replicate.
    pose proof maxPoints_pos.
    cbn [Main.pointCount Main.resetAttractor Main.updateUIFromParams]. lia. }
  split; [exact Halloc |]. split; [exact Hi |].
  exact (proj1 (slot_color_travels Main.frames_past_capacity Main.initial
                  (Main.maxPoints - 2) Halloc Hi)).
Defined.

(** C8 as stated fails: a quarter of the capacity of frames after the buffer
    has filled, slot 0 holds the colour of the index a quarter of the capacity
    up, whose red channel is 1, where the colour of index 0 has red 0.5. *)
Lemma slot_color_counterexample :
  0 < Main.pointCount Main.after_quarter_turn /\
  Main.slot (Main.colors Main.after_quarter_turn) 0 <>
    Main.color_vector (Main.getColor (JsNum.of_nat 0)) /\
  Main.slot (Main.colors Main.after_quarter_turn) 0 <>
    stored (Main.color_vector (Main.getColor (JsNum.of_nat 0))).
Proof.
  pose proof maxPoints_pos as Hpos. pose proof maxPoints_value as Hval.
  pose proof quarter_value as Hq.
  assert (Main.pointCount Main.after_quarter_turn = Main.maxPoints) as Hcount.
  { unfold Main.after_quarter_turn.
    rewrite pointCount_run by (simpl; lia). rewrite length_replicate.
    cbn [Main.pointCount Main.resetAttractor Main.updateUIFromParams]. lia. }
  split; [lia |].
  assert (Main.slot (Main.colors Main.after_quarter_turn) 0 =
          stored (Main.color_vector
                    (Main.getColor (JsNum.of_nat Main.quarter)))) as ->.
  { unfold Main.after_quarter_turn in *.
    rewrite slot_colors_run by (by apply allocated_initial || lia).
    rewrite length_replicate.
    by replace (Nat.min (0 + (Main.maxPoints + Main.quarter - Main.maxPoints))
                  (Main.maxPoints - 1)) with Main.quarter by lia. }
  destruct red_of_first as [Hred Hred'].
  split; intros H.
  - apply stored_red in H. rewrite red_of_quarter, Hred in H.
    injection H as H. lra.
  - apply stored_red_stored in H. rewrite red_of_quarter, Hred' in H.
    injection H as H. lra.
Qed.

(** ** The colour function in binary64 *)

Section Binary64Facts.

#[local] Open Scope R_scope.

(** A binary64 number of the normal range converts to itself. *)
Lemma round64_exact (a : R) (e n : Z) :
  (-1022 <= e <= 1023)%Z -> a < 1000 ->
  powerRZ 2 e <= a < powerRZ 2 (e + 1) ->
  a = IZR n * powerRZ 2 (e - 52) ->
  Binary64.round (Num a) = Num a.
Proof.
  intros He Ha Hbin Hn.
  pose proof (overflow_big 53 1023 ltac:(lia)).
  pose proof (pow2_pos e). pose proof (pow2_pos (e - 52)) as Hulp.
  unfold Binary64.round. cbn [Binary.convert].
  rewrite (round_nearest 53 (-1022) 1023 a e n); try lra; try lia.
  - f_equal. rewrite Hn. reflexivity.
  - change (e - (53 - 1))%Z with (e - 52)%Z. rewrite Hn.
    replace (IZR n * powerRZ 2 (e - 52) / powerRZ 2 (e - 52) - IZR n) with 0
      by (field; lra).
    rewrite Rabs_R0. lra.
Qed.

Lemma round64_0 : Binary64.round (Num 0) = Num 0.
Proof. apply round_0. lia. Qed.

Lemma round64_half : Binary64.round (Num 0.5) = Num 0.5.
Proof.
  apply (round64_exact 0.5 (-1) 4503599627370496); try lia; try lra.
  - simpl. lra.
  - simpl. lra.
Qed.

Lemma round64_1 : Binary64.round (Num 1) = Num 1.
Proof.
  apply (round64_exact 1 0 4503599627370496); try lia; try lra.
  - simpl. lra.
  - simpl. lra.
Qed.

(** [Math.PI] is 884279719003555 / 2^48; it and its double are binary64
    numbers. *)
Lemma PI64_value :
  Binary64.PI = Num (884279719003555 / 281474976710656).
Proof. unfold Binary64.PI. f_equal. simpl. lra. Qed.

Lemma round64_PI :
  Binary64.round (Num (884279719003555 / 281474976710656)) =
    Num (884279719003555 / 281474976710656).
Proof.
  apply (round64_exact _ 1 7074237752028440); try lia; try lra.
  - simpl. lra.
  - simpl. lra.
Qed.

Lemma round64_2PI :
  Binary64.round (Num (884279719003555 / 281474976710656 * 2)) =
    Num (884279719003555 / 281474976710656 * 2).
Proof.
  apply (round64_exact _ 2 7074237752028440); try lia; try lra.
  - simpl. lra.
  - simpl. lra.
Qed.

(** A number of magnitude at most 64 converts to a number within a relative
    error of 2^-53 of it, up to 1e-18. *)
Lemma round64_error (a : R) :
  -64 <= a <= 64 ->
  exists v : R,
    Binary64.round (Num a) = Num v /\
    Rabs (v - a) <= Rabs a / 9007199254740992 + 0.000000000000000001.
Proof.
  intros Ha.
  pose proof (overflow_big 53 1023 ltac:(lia)).
  assert (Rabs a <= 64) as Habs by (apply Rabs_le; lra).
  assert (Rabs a < Binary.overflow 53 1023) as Hov by lra.
  destruct (round_error 53 (-1022) 1023 a ltac:(lia) Hov) as (v & Hv & Herr).
  exists v. split; [exact Hv |].
  pose proof (pow2_le (-1022 - 53) (-60) ltac:(lia)) as Htiny.
  set (tiny := powerRZ 2 (-1022 - 53)) in *. clearbody tiny.
  change (Z.opp 53) with (-53)%Z in Herr.
  simpl in Htiny. simpl (powerRZ 2 (-53)) in Herr. lra.
Qed.

(** The same, as an absolute error. *)
Lemma round64_near (a : R) :
  -64 <= a <= 64 ->
  exists v : R,
    Binary64.round (Num a) = Num v /\
    - 0.00000000000001 <= v - a <= 0.00000000000001.
Proof.
  intros Ha. destruct (round64_error a Ha) as (v & Hv & Herr).
  exists v. split; [exact Hv |].
  assert (Rabs a <= 64) as Habs by (apply Rabs_le; lra).
  assert (Rabs (v - a) <= 0.00000000000001) as H by lra.
  pose proof (Rle_abs (v - a)). pose proof (Rle_abs (- (v - a))) as H'.
  rewrite Rabs_Ropp in H'. lra.
Qed.

(** Bounds on the sine and on pi *)
Lemma sin_lower (x : R) : 0 <= x <= 1 -> x - x * x * x / 6 <= sin x.
Proof.
  intros [H0 H1].
  destruct (SIN x H0) as [Hlb _]; [pose proof PI2_3_2; lra |].
  set (y := x * x).
  assert (Hy : 0 <= y <= 1) by (unfold y; nra).
  assert (Hy2 : 0 <= y * y) by nra.
  assert (E : sin_lb x =
              x - y * x / 6 + x * (y * y * (1 / 120 - y / 5040))).
  { unfold sin_lb, sin_approx, sin_term, y. simpl. field. }
  rewrite E in Hlb.
  assert (0 <= x * (y * y * (1 / 120 - y / 5040))).
  { apply Rmult_le_pos; [lra |]. apply Rmult_le_pos; lra. }
  lra.
Qed.

Lemma sin_abs_le (x : R) : Rabs (sin x) <= Rabs x.
Proof.
  destruct (Rle_or_lt 0 x) as [H | H].
  - destruct (Req_dec x 0) as [-> | Hne]; [rewrite sin_0; lra |].
    pose proof (sin_lt_x x ltac:(lra)). pose proof (SIN_bound x).
    rewrite (Rabs_pos_eq x) by lra. apply Rabs_le.
    destruct (Rle_or_lt x 1).
    + pose proof (sin_lower x ltac:(lra)). nra.
    + lra.
  - pose proof (sin_lt_x (- x) ltac:(lra)) as Hs. rewrite sin_neg in Hs.
    pose proof (SIN_bound x).
    rewrite (Rabs_left x) by lra. apply Rabs_le.
    destruct (Rle_or_lt (- x) 1).
    + pose proof (sin_lower (- x) ltac:(lra)) as Hl. rewrite sin_neg in Hl.
      nra.
    + lra.
Qed.

Lemma sin_lipschitz (a c : R) : Rabs (sin a - sin c) <= Rabs (a - c).
Proof.
  rewrite form4. rewrite !Rabs_mult, (Rabs_pos_eq 2) by lra.
  pose proof (COS_bound ((a + c) / 2)) as Hc.
  assert (Rabs (cos ((a + c) / 2)) <= 1) by (apply Rabs_le; lra).
  pose proof (sin_abs_le ((a - c) / 2)) as Hs.
  replace (Rabs ((a - c) / 2)) with (Rabs (a - c) / 2) in Hs.
  2:{ unfold Rdiv. rewrite Rabs_mult, (Rabs_pos_eq (/ 2)); lra. }
  pose proof (Rabs_pos (sin ((a - c) / 2))). pose proof (Rabs_pos (cos ((a + c) / 2))).
  nra.
Qed.

Lemma PI_lower : 3.14159265358979320 < PI.
Proof.
  pose proof (PI_2_3_7_ineq 9) as [H _].
  unfold PI_2_3_7_tg, Ratan_seq, tg_alt in H. simpl in H. lra.
Qed.

Lemma PI_upper : PI < 3.14159265358979330.
Proof.
  pose proof (PI_2_3_7_ineq 9) as [_ H].
  unfold PI_2_3_7_tg, Ratan_seq, tg_alt in H. simpl in H. lra.
Qed.

(** The colour of a finite index, operation by operation. *)
Lemma round64_rel (a bound : R) :
  -64 <= a <= 64 -> - bound <= a <= bound ->
  exists v : R,
    Binary64.round (Num a) = Num v /\
    - (bound / 9007199254740992 + 0.000000000000000001) <= v - a
      <= bound / 9007199254740992 + 0.000000000000000001.
Proof.
  intros Ha Hb. destruct (round64_error a Ha) as (v & Hv & Herr).
  exists v. split; [exact Hv |].
  assert (Rabs a <= bound) as Habs by (apply Rabs_le; lra).
  pose proof (Rle_abs (v - a)). pose proof (Rle_abs (- (v - a))) as H'.
  rewrite Rabs_Ropp in H'. lra.
Qed.

Lemma add64_near (a c : R) :
  -32 <= a <= 32 -> -32 <= c <= 32 ->
  exists v : R,
    Binary64.add (Num a) (Num c) = Num v /\
    - 0.00000000000001 <= v - (a + c) <= 0.00000000000001.
Proof. intros Ha Hc. apply round64_near. lra. Qed.

Lemma mul64_near (a c : R) :
  -64 <= a * c <= 64 ->
  exists v : R,
    Binary64.mul (Num a) (Num c) = Num v /\
    - 0.00000000000001 <= v - a * c <= 0.00000000000001.
Proof. intros H. by apply round64_near. Qed.

Lemma div64_near (a c : R) :
  c <> 0 -> -64 <= a / c <= 64 ->
  exists v : R,
    Binary64.div (Num a) (Num c) = Num v /\
    - 0.00000000000001 <= v - a / c <= 0.00000000000001.
Proof.
  intros Hc H. unfold Binary64.div. rewrite jsnum_div_Num by done.
  by apply round64_near.
Qed.

Lemma sin64_near (a : R) :
  exists v : R,
    Binary64.sin (Num a) = Num v /\
    - 0.00000000000001 <= v - sin a <= 0.00000000000001.
Proof. apply round64_near. pose proof (SIN_bound a). lra. Qed.

(** [i / maxPoints * Math.PI * 2] *)
Lemma phase_near (n : R) :
  0 <= n <= 20000 ->
  exists phi : R,
    Binary64.mul
      (Binary64.mul (Binary64.div (Num n) (JsNum.of_nat Main.maxPoints))
         Binary64.PI) (Num 2) = Num phi /\
    - 0.0000000000001 <= phi - n / 10000 * PI * 2 <= 0.0000000000001 /\
    -1 <= phi <= 13.
Proof.
  intros Hn. unfold JsNum.of_nat. rewrite INR_maxPoints, PI64_value.
  destruct (div64_near n 10000) as (q & -> & Hq); [lra | lra |].
  destruct (mul64_near q (884279719003555 / 281474976710656))
    as (p & -> & Hp); [lra |].
  destruct (mul64_near p 2) as (phi & -> & Hphi); [lra |].
  exists phi. split; [reflexivity |].
  pose proof PI_lower. pose proof PI_upper.
  assert (n * 3.14159265358979320 <= n * PI <= n * 3.14159265358979330)
    by nra.
  lra.
Qed.

(** [2 * Math.PI / 3] and [4 * Math.PI / 3] *)
Lemma offset_near (k : R) :
  0 <= k <= 4 ->
  exists c : R,
    Binary64.div (Binary64.mul (Num k) Binary64.PI) (Num 3) = Num c /\
    - 0.0000000000001 <= c - k * PI / 3 <= 0.0000000000001 /\
    -1 <= c <= 5.
Proof.
  intros Hk. rewrite PI64_value.
  destruct (mul64_near k (884279719003555 / 281474976710656))
    as (p & -> & Hp); [lra |].
  destruct (div64_near p 3) as (c & -> & Hc); [lra | lra |].
  exists c. split; [reflexivity |].
  pose proof PI_lower. pose proof PI_upper.
  assert (k * 3.14159265358979320 <= k * PI <= k * 3.14159265358979330)
    by nra.
  lra.
Qed.

(** [Math.sin(angle) * 0.5 + 0.5] *)
Lemma channel_near (angle exact tol : R) :
  - tol <= angle - exact <= tol ->
  exists v : R,
    Binary64.add (Binary64.mul (Binary64.sin (Num angle)) (Num 0.5))
      (Num 0.5) = Num v /\
    - (tol + 0.00000000000003) <= v - (sin exact * 0.5 + 0.5)
      <= tol + 0.00000000000003.
Proof.
  intros Htol.
  destruct (sin64_near angle) as (s & -> & Hs).
  pose proof (SIN_bound angle).
  destruct (mul64_near s 0.5) as (m & -> & Hm); [lra |].
  destruct (add64_near m 0.5) as (v & -> & Hv); [lra | lra |].
  exists v. split; [reflexivity |].
  pose proof (sin_lipschitz angle exact) as Hl.
  assert (Rabs (angle - exact) <= tol) by (apply Rabs_le; lra).
  pose proof (Rle_abs (sin angle - sin exact)).
  pose proof (Rle_abs (- (sin angle - sin exact))) as H'.
  rewrite Rabs_Ropp in H'. lra.
Qed.

(** The colour [getColor] computes in binary64 is within 5e-13 of the exact
    one, channel by channel. *)
Lemma getColor64_near (n : R) :
  0 <= n <= 20000 ->
  exists r g b : R,
    Binary64.getColor (Num n) =
      {| Main.r := Num r; Main.g := Num g; Main.b := Num b |} /\
    Rabs (r - (sin (n / 10000 * PI * 2) * 0.5 + 0.5)) <= 0.0000000000005 /\
    Rabs (g - (sin (n / 10000 * PI * 2 + 2 * PI / 3) * 0.5 + 0.5))
      <= 0.0000000000005 /\
    Rabs (b - (sin (n / 10000 * PI * 2 + 4 * PI / 3) * 0.5 + 0.5))
      <= 0.0000000000005.
Proof.
  intros Hn. unfold Binary64.getColor. cbv zeta.
  destruct (phase_near n Hn) as (phi & -> & Hphi & Hrange).
  destruct (offset_near 2) as (c2 & -> & Hc2 & Hr2); [lra |].
  destruct (offset_near 4) as (c4 & -> & Hc4 & Hr4); [lra |].
  destruct (add64_near phi c2) as (a2 & -> & Ha2); [lra | lra |].
  destruct (add64_near phi c4) as (a4 & -> & Ha4); [lra | lra |].
  destruct (channel_near phi (n / 10000 * PI * 2) 0.0000000000001)
    as (r & -> & Hred); [lra |].
  destruct (channel_near a2 (n / 10000 * PI * 2 + 2 * PI / 3)
              0.0000000000003) as (g & -> & Hgreen); [lra |].
  destruct (channel_near a4 (n / 10000 * PI * 2 + 4 * PI / 3)
              0.0000000000003) as (b & -> & Hblue); [lra |].
  exists r, g, b. split; [reflexivity |].
  repeat split; apply Rabs_le; lra.
Qed.

Lemma sin_turn (t : R) : sin (t + 2 * PI) = sin t.
Proof.
  replace (t + 2 * PI) with (t + 2 * INR 1 * PI) by (simpl; lra).
  apply sin_period.
Qed.

(** The red channel of index 0 and of the capacity. *)
Lemma red64_of_first :
  Main.r (Binary64.getColor (JsNum.of_nat 0)) = Num 0.5.
Proof.
  unfold Binary64.getColor, JsNum.of_nat. cbv zeta. cbn [Main.r INR].
  rewrite INR_maxPoints.
  unfold Binary64.div. rewrite jsnum_div_Num by lra.
  replace (0 / 10000) with 0 by lra. rewrite round64_0, PI64_value.
  unfold Binary64.mul. cbn [JsNum.mul]. rewrite Rmult_0_l, round64_0.
  cbn [JsNum.mul]. rewrite Rmult_0_l, round64_0.
  unfold Binary64.sin. cbn [JsNum.sin]. rewrite sin_0, round64_0.
  cbn [JsNum.mul]. rewrite Rmult_0_l, round64_0.
  unfold Binary64.add. cbn [JsNum.add]. rewrite Rplus_0_l.
  apply round64_half.
Qed.

Lemma red64_of_capacity :
  exists v : R,
    Main.r (Binary64.getColor (JsNum.of_nat (0 + Main.maxPoints))) = Num v /\
    v < 0.5.
Proof.
  unfold Binary64.getColor, JsNum.of_nat. cbv zeta. cbn [Main.r].
  rewrite Nat.add_0_l, INR_maxPoints.
  unfold Binary64.div. rewrite jsnum_div_Num by lra.
  replace (10000 / 10000) with 1 by lra. rewrite round64_1, PI64_value.
  unfold Binary64.mul at 3. cbn [JsNum.mul]. rewrite Rmult_1_l, round64_PI.
  unfold Binary64.mul at 2. cbn [JsNum.mul]. rewrite round64_2PI.
  unfold Binary64.sin. cbn [JsNum.sin].
  set (d := 2 * PI - 884279719003555 / 281474976710656 * 2).
  pose proof PI_lower. pose proof PI_upper.
  assert (0.000000000000000168 <= d <= 0.000000000000000369) as Hd
    by (unfold d; lra).
  assert (sin (884279719003555 / 281474976710656 * 2) = - sin d) as ->.
  { rewrite <- sin_neg, <- (sin_turn (- d)). f_equal. unfold d. lra. }
  pose proof (sin_lower d ltac:(lra)) as Hlow.
  assert (d * d * d <= d * 0.01) by nra.
  assert (sin d <= d).
  { pose proof (sin_lt_x d ltac:(lra)). lra. }
  destruct (round64_rel (- sin d) 0.000000000000001) as (s & -> & Hs);
    [lra | lra |].
  unfold Binary64.mul. cbn [JsNum.mul].
  destruct (round64_rel (s * 0.5) 0.000000000000001) as (m & -> & Hm);
    [lra | lra |].
  unfold Binary64.add. cbn [JsNum.add].
  destruct (round64_rel (m + 0.5) 0.5) as (v & -> & Hv); [lra | lra |].
  exists v. split; [reflexivity | lra].
Qed.

End Binary64Facts.


(** C9: the hue cycle has the capacity as its period up to rounding only.
    For every slot index [i] below the capacity, the colours [getColor]
    computes in binary64 for [i] and for [i + maxPoints] have finite
    channels, and each channel of the one is within 1e-12 of the same
    channel of the other. *)
Theorem color_periodicity (i : nat) :
  i < Main.maxPoints ->
  exists r g b r' g' b' : R,
    Binary64.getColor (JsNum.of_nat i) =
      {| Main.r := Num r; Main.g := Num g; Main.b := Num b |} /\
    Binary64.getColor (JsNum.of_nat (i + Main.maxPoints)) =
      {| Main.r := Num r'; Main.g := Num g'; Main.b := Num b' |} /\
    (Rabs (r' - r) <= 0.000000000001)%R /\
    (Rabs (g' - g) <= 0.000000000001)%R /\
    (Rabs (b' - b) <= 0.000000000001)%R.
Proof.
  intros Hi. unfold JsNum.of_nat. rewrite plus_INR, INR_maxPoints.
  assert (0 <= INR i <= 10000)%R as Hn.
  { split; [apply pos_INR |]. rewrite <- INR_maxPoints. apply le_INR. lia. }
  set (n := INR i) in *. clearbody n.
  destruct (getColor64_near n) as (r & g & b & -> & Hr & Hg & Hb);
    [lra |].
  destruct (getColor64_near (n + 10000)%R)
    as (r' & g' & b' & -> & Hr' & Hg' & Hb'); [lra |].
  exists r, g, b, r', g', b'. do 2 (split; [reflexivity |]).
  replace ((n + 10000) / 10000 * PI * 2)%R
    with (n / 10000 * PI * 2 + 2 * PI)%R in * by lra.
  replace (n / 10000 * PI * 2 + 2 * PI + 2 * PI / 3)%R
    with (n / 10000 * PI * 2 + 2 * PI / 3 + 2 * PI)%R in * by lra.
  replace (n / 10000 * PI * 2 + 2 * PI + 4 * PI / 3)%R
    with (n / 10000 * PI * 2 + 4 * PI / 3 + 2 * PI)%R in * by lra.
  rewrite sin_turn in Hr', Hg', Hb'.
  repeat split.
  - replace (r' - r)%R with ((r' - (sin (n / 10000 * PI * 2) * 0.5 + 0.5))
      - (r - (sin (n / 10000 * PI * 2) * 0.5 + 0.5)))%R by lra.
    eapply Rle_trans; [apply Rabs_triang |]. rewrite Rabs_Ropp. lra.
  - replace (g' - g)%R
      with ((g' - (sin (n / 10000 * PI * 2 + 2 * PI / 3) * 0.5 + 0.5))
      - (g - (sin (n / 10000 * PI * 2 + 2 * PI / 3) * 0.5 + 0.5)))%R by lra.
    eapply Rle_trans; [apply Rabs_triang |]. rewrite Rabs_Ropp. lra.
  - replace (b' - b)%R
      with ((b' - (sin (n / 10000 * PI * 2 + 4 * PI / 3) * 0.5 + 0.5))
      - (b - (sin (n / 10000 * PI * 2 + 4 * PI / 3) * 0.5 + 0.5)))%R by lra.
    eapply Rle_trans; [apply Rabs_triang |]. rewrite Rabs_Ropp. lra.
Qed.

Lemma color_periodicity_witness :
  0 < Main.maxPoints /\
  exists r g b r' g' b' : R,
    Binary64.getColor (JsNum.of_nat 0) =
      {| Main.r := Num r; Main.g := Num g; Main.b := Num b |} /\
    Binary64.getColor (JsNum.of_nat (0 + Main.maxPoints)) =
      {| Main.r := Num r'; Main.g := Num g'; Main.b := Num b' |} /\
    (Rabs (r' - r) <= 0.000000000001)%R /\
    (Rabs (g' - g) <= 0.000000000001)%R /\
    (Rabs (b' - b) <= 0.000000000001)%R.
Proof.
  split; [exact maxPoints_pos |].
  exact (color_periodicity 0 maxPoints_pos).
Defined.

(** C9 as stated fails: the colour of index 0 has the red channel 0.5, the
    colour of the index one capacity later a red channel below 0.5
    ([Math.PI * 2] is below 2 pi, so the sine of the phase is negative), and
    the two colours are not equal. *)
Lemma color_periodicity_counterexample :
  Main.r (Binary64.getColor (JsNum.of_nat 0)) = Num 0.5 /\
  (exists v : R,
     Main.r (Binary64.getColor (JsNum.of_nat (0 + Main.maxPoints))) = Num v /\
     (v < 0.5)%R) /\
  Binary64.getColor (JsNum.of_nat 0) <>
    Binary64.getColor (JsNum.of_nat (0 + Main.maxPoints)).
Proof.
  pose proof red64_of_first as H0.
  destruct red64_of_capacity as (v & Hv & Hlt).
  split; [exact H0 |]. split; [by exists v |].
  intros Heq. rewrite Heq, Hv in H0. injection H0 as H0. lra.
Qed.

(** ** The integrators *)

Ltac eval_string_tests :=
  repeat match goal with
  | |- context [String.eqb ?a ?b] =>
      let v := eval vm_compute in (String.eqb a b) in
      change (String.eqb a b) with v
  end;
  cbv iota.

Section IntegratorFacts.

Import Main.

Implicit Types (s : engine) (m : Spec.Model).

(** main.js: every [case] multiplies the derivative of section 4.1 by the
    model's [dt]. *)
Lemma deltas_euler s m :
  currentAttractor s = Spec.model_id m ->
  deltas s =
    Spec.vscale (prop (Spec.param_set (params s) m) "dt")
      (Spec.derivative m (Spec.param_set (params s) m) (newPoint s)).
Proof.
  intros Hcur. unfold deltas. rewrite Hcur.
  destruct m; cbn [Spec.model_id]; eval_string_tests;
    unfold Spec.derivative, Spec.vscale, Spec.param_set, newPoint;
    cbv beta iota zeta;
    (f_equal; [f_equal |]); apply jsnum_mul_comm.
Qed.

(** The RK4 variant: the block of a [case] is the classical scheme. *)
Lemma rk4_case_spec (deriv : jsnum -> jsnum -> jsnum -> Vector3)
    (dt x y z : jsnum) :
  Spec.vadd (x, y, z) (Rk4.rk4_case deriv dt x y z) =
    Spec.rk4_step (fun v => let '(a, b, c) := v in deriv a b c) dt (x, y, z).
Proof.
  unfold Rk4.rk4_case, Spec.rk4_step.
  destruct (deriv x y z) as [[k1x k1y] k1z].
  cbn [Spec.vscale Spec.vdiv Spec.vadd].
  rewrite !(jsnum_mul_comm dt).
  destruct (deriv _ _ _) as [[k2x k2y] k2z].
  cbn [Spec.vscale Spec.vdiv Spec.vadd].
  rewrite !(jsnum_mul_comm dt).
  destruct (deriv _ _ _) as [[k3x k3y] k3z].
  cbn [Spec.vscale Spec.vdiv Spec.vadd].
  rewrite !(jsnum_mul_comm dt).
  destruct (deriv _ _ _) as [[k4x k4y] k4z].
  cbn [Spec.vscale Spec.vdiv Spec.vadd].
  rewrite !(jsnum_mul_comm dt).
  reflexivity.
Qed.

Lemma rk4_case_of s m :
  Rk4.case_of s (Spec.model_id m) =
    Some (fun x y z => Rk4.derivative (params s) m (x, y, z),
          Spec.param_set (params s) m).
Proof. by destruct m. Qed.

Lemma newPoint_rk4 s :
  newPoint (Rk4.computeNextPoint s) = Spec.vadd (newPoint s) (Rk4.deltas s).
Proof.
  unfold Rk4.computeNextPoint. by destruct (Rk4.deltas s) as [[dx dy] dz].
Qed.

Lemma rk4_compute_step s m :
  currentAttractor s = Spec.model_id m ->
  newPoint (Rk4.computeNextPoint s) =
    Spec.rk4_step (Rk4.derivative (params s) m)
      (prop (Spec.param_set (params s) m) "dt") (newPoint s).
Proof.
  intros Hcur. rewrite newPoint_rk4. unfold Rk4.deltas.
  rewrite Hcur, rk4_case_of. apply rk4_case_spec.
Qed.

(** Outside aizawa the RK4 variant integrates the table of section 4.1;
    its aizawa derivative is the one scaled by [k = 10]. *)
Lemma rk4_derivative_table (p : Params) m (v : Vector3) :
  m <> Spec.Aizawa ->
  Rk4.derivative p m v = Spec.derivative m (Spec.param_set p m) v.
Proof. intros Hm. destruct v as [[a b0] c]. by destruct m. Qed.

End IntegratorFacts.

Section FirstStep.

Import Main.

#[local] Open Scope R_scope.

(** On the page as created, the first frame reads back the default
    parameters. *)
Lemma update_created_page :
  updateParametersFromUI created_page initial = initial.
Proof.
  unfold updateParametersFromUI. simpl.
  unfold update_key, getElementById, created_page, page. simpl.
  rewrite parseFloat_10, parseFloat_28, parseFloat_2_666, parseFloat_0_01.
  reflexivity.
Qed.

(** main.js, first frame: the explicit Euler values. *)
Lemma main_first_step :
  newPoint (animate created_page initial) = (Num 0.09, Num 0.028, Num 0).
Proof.
  rewrite newPoint_animate, update_created_page.
  unfold newPoint, computeNextPoint, deltas. simpl.
  f_equal; [f_equal |]; f_equal; lra.
Qed.

(** The classical RK4 step from the initial state with the default Lorenz
    parameters, coordinate by coordinate. *)
Lemma rk4_first_step :
  exists a b0 c : R,
    Spec.rk4_step
      (Spec.derivative Spec.Lorenz (lorenz default_params))
      (Num 0.01) (Num 0.1, Num 0, Num 0) = (Num a, Num b0, Num c) /\
    0.09179 < a < 0.09180 /\ 0.02663 < b0 < 0.02664 /\
    0.0000126 < c < 0.0000127.
Proof.
  unfold Spec.rk4_step, Spec.derivative, prop. simpl.
  repeat (rewrite jsnum_div_Num by lra; simpl).
  do 3 eexists. split; [reflexivity |]. lra.
Qed.

End FirstStep.

(** C1, as the code has it: for each of the six models and every state and
    parameter object, [computeNextPoint] of main.js advances the state by one
    explicit Euler step of size [dt] on the derivative of section 4.1, and
    [computeNextPoint] of the RK4 variant advances it by one classical
    4th-order Runge-Kutta step of size [dt] on that file's derivative
    function, which is the derivative of section 4.1 for every model but
    aizawa. *)
Theorem integrator_of_each_file (s : Main.engine) (m : Spec.Model) :
  Main.currentAttractor s = Spec.model_id m ->
  let o := Spec.param_set (Main.params s) m in
  let h := prop o "dt" in
  Main.newPoint (Main.computeNextPoint s) =
    Spec.euler_step (Spec.derivative m o) h (Main.newPoint s) /\
  Main.newPoint (Rk4.computeNextPoint s) =
    Spec.rk4_step (Rk4.derivative (Main.params s) m) h (Main.newPoint s) /\
  (m <> Spec.Aizawa ->
   forall v, Rk4.derivative (Main.params s) m v = Spec.derivative m o v).
Proof.
  intros Hcur o h. split; [| split].
  - rewrite newPoint_compute. unfold Spec.euler_step. f_equal.
    by apply deltas_euler.
  - by apply rk4_compute_step.
  - intros Hm v. by apply rk4_derivative_table.
Qed.

Lemma integrator_of_each_file_witness :
  Main.newPoint (Main.computeNextPoint Main.initial) =
    Spec.euler_step
      (Spec.derivative Spec.Lorenz (lorenz (Main.params Main.initial)))
      (prop (lorenz (Main.params Main.initial)) "dt")
      (Main.newPoint Main.initial).
Proof.
  exact (proj1 (integrator_of_each_file Main.initial Spec.Lorenz eq_refl)).
Defined.

(** C1 as stated fails on main.js: the first frame from the initial state
    with the default Lorenz parameters is not the classical RK4 step. *)
Lemma rk4_default_counterexample :
  Main.newPoint (Main.animate Main.created_page Main.initial) <>
    Spec.rk4_step
      (Spec.derivative Spec.Lorenz (lorenz Main.default_params))
      (Num 0.01) (Num 0.1, Num 0, Num 0).
Proof.
  rewrite main_first_step.
  destruct rk4_first_step as (a & b0 & c & -> & Ha & _).
  intros [= Heq _ _]. lra.
Qed.

(** C2, as the code has it: from (0.1, 0, 0) with the default Lorenz
    parameters one frame of main.js yields the explicit Euler values
    (0.09, 0.028, 0), each coordinate to within 1e-9; one frame of the RK4
    variant yields a state within 1e-4 of (0.091793, 0.026634, 0.0000126) in
    every coordinate. *)
Theorem lorenz_first_step :
  (let '(a, b, c) :=
     Main.newPoint (Main.animate Main.created_page Main.initial) in
   Spec.close 0.000000001 a 0.09 /\ Spec.close 0.000000001 b 0.028 /\
   Spec.close 0.000000001 c 0) /\
  Spec.lorenz_scenario
    (Main.newPoint (Rk4.animate Main.created_page Main.initial)).
Proof.
  split.
  { rewrite main_first_step. unfold Spec.close.
    repeat split; apply Rabs_le; lra. }
  unfold Rk4.animate.
  destruct (append_preserves
              (Rk4.computeNextPoint
                 (Main.updateParametersFromUI Main.created_page Main.initial)))
    as (-> & _).
  rewrite update_created_page.
  assert (Main.newPoint (Rk4.computeNextPoint Main.initial) =
          Spec.rk4_step
            (Spec.derivative Spec.Lorenz (lorenz Main.default_params))
            (Num 0.01) (Num 0.1, Num 0, Num 0)) as ->
    by exact (rk4_compute_step Main.initial Spec.Lorenz eq_refl).
  destruct rk4_first_step as (a & b0 & c & -> & Ha & Hb & Hc).
  unfold Spec.lorenz_scenario, Spec.close.
  repeat split; apply Rabs_le; lra.
Qed.

(** C2 as stated fails on main.js: its first frame is off by 0.0018 in
    [x]. *)
Lemma lorenz_scenario_counterexample :
  ~ Spec.lorenz_scenario
      (Main.newPoint (Main.animate Main.created_page Main.initial)).
Proof.
  rewrite main_first_step. unfold Spec.lorenz_scenario, Spec.close.
  intros (Hx & _). rewrite Rabs_left in Hx by lra. lra.
Qed.

(** C6 as stated fails: after exactly [maxPoints] frames from a reset, slot
    0 does not hold the result of the first frame but its conversion to
    binary32, which differs from it in [x]. *)
Lemma stored_point_counterexample :
  Main.pointCount Main.at_capacity = Main.maxPoints /\
  Main.slot (Main.positions Main.at_capacity) 0 <>
    Main.newPoint
      (Main.animate Main.created_page (Main.resetAttractor Main.initial)).
Proof.
  split; [apply pointCount_at_capacity |].
  unfold Main.at_capacity. rewrite replicate_maxPoints.
  rewrite first_slot_after_fill
    by (apply allocated_initial ||
        (rewrite <- (replicate_maxPoints Main.created_page);
         apply length_replicate)).
  rewrite reset_initial, main_first_step. unfold stored.
  rewrite fround_0_09. intros [= H]. revert H. simpl. lra.
Qed.

(** ** NaN *)

Section NaNFacts.

Lemma NaN_add_l (u : jsnum) : JsNum.add NaN u = NaN.
Proof. reflexivity. Qed.

Lemma NaN_add_r (u : jsnum) : JsNum.add u NaN = NaN.
Proof. by destruct u. Qed.

Lemma NaN_sub_l (u : jsnum) : JsNum.sub NaN u = NaN.
Proof. reflexivity. Qed.

Lemma NaN_sub_r (u : jsnum) : JsNum.sub u NaN = NaN.
Proof. by destruct u. Qed.

Lemma NaN_mul_l (u : jsnum) : JsNum.mul NaN u = NaN.
Proof. reflexivity. Qed.

Lemma NaN_mul_r (u : jsnum) : JsNum.mul u NaN = NaN.
Proof. by destruct u. Qed.

Lemma NaN_div_l (u : jsnum) : JsNum.div NaN u = NaN.
Proof. reflexivity. Qed.

End NaNFacts.

Create Rewrite HintDb nan.

#[global] Hint Rewrite NaN_add_l NaN_add_r NaN_sub_l
  NaN_sub_r NaN_mul_l NaN_mul_r NaN_div_l : nan.

Section ParameterWrites.

Import Main.

Implicit Types (s : engine) (ui : UI) (m : Spec.Model).

(** What a frame leaves in a parameter of the active model. *)
Lemma prop_update ui s m (key : string) :
  currentAttractor s = Spec.model_id m ->
  key ∈ keys (Spec.param_set (params s) m) ->
  prop (Spec.param_set (params (updateParametersFromUI ui s)) m) key =
    match getElementById ui (Spec.model_id m ++ "-" ++ key)%string with
    | Some value => ParseFloat.parseFloat value
    | None => prop (Spec.param_set (params s) m) key
    end.
Proof.
  intros Hcur Hkey. unfold updateParametersFromUI.
  rewrite Hcur, params_get_model. cbn [params].
  rewrite param_set_put_eq. unfold prop at 1.
  rewrite own_update_loop, decide_True by done.
  by destruct (getElementById ui _).
Qed.

(** The parameters of the other models are not touched. *)
Lemma param_set_update_other ui s m m' :
  currentAttractor s = Spec.model_id m -> m <> m' ->
  Spec.param_set (params (updateParametersFromUI ui s)) m' =
    Spec.param_set (params s) m'.
Proof.
  intros Hcur Hne. unfold updateParametersFromUI.
  rewrite Hcur, params_get_model. cbn [params].
  by apply param_set_put_ne.
Qed.

(** A NaN in any coefficient of the active model is in the state vector
    after the next step. *)
Lemma NaN_reaches_state s m (key : string) :
  currentAttractor s = Spec.model_id m ->
  key ∈ keys (Spec.param_set default_params m) ->
  prop (Spec.param_set (params s) m) key = NaN ->
  let s' := computeNextPoint s in
  x s' = NaN \/ y s' = NaN \/ z s' = NaN.
Proof.
  intros Hcur Hkey Hnan. unfold computeNextPoint, deltas. rewrite Hcur.
  destruct m; cbn [Spec.model_id]; eval_string_tests;
    cbn [Spec.param_set default_params keys map fst lorenz aizawa rossler
           chen thomas dadras] in Hkey, Hnan;
    rewrite !elem_of_cons, elem_of_nil in Hkey;
    cbv zeta; cbn [x y z];
    repeat (destruct Hkey as [-> | Hkey]; [rewrite Hnan |]);
    try contradiction;
    autorewrite with nan; auto.
Qed.

End ParameterWrites.

(** C3, as the code has it: the code checks no write.  A frame overwrites
    every coefficient of the active model whose input exists with
    [parseFloat] of the text the input reads, whatever that is.  What keeps
    NaN out is the page: while every input reads a valid floating-point
    number, as a range slider always does, a coefficient that is not NaN is
    not NaN after the frame.  Only when the text reads as NaN (an element that
    is no range slider) is the previous value lost to NaN, which the next
    step, still returning, carries into the state vector. *)
Theorem parameter_write_unchecked (ui : UI) (s : Main.engine)
    (m : Spec.Model) (key : string) :
  Main.currentAttractor s = Spec.model_id m ->
  key ∈ keys (Spec.param_set (Main.params s) m) ->
  let s' := Main.updateParametersFromUI ui s in
  (forall value,
     getElementById ui (Spec.model_id m ++ "-" ++ key)%string = Some value ->
     prop (Spec.param_set (Main.params s') m) key =
       ParseFloat.parseFloat value) /\
  ((forall id text,
      getElementById ui id = Some text -> Range.number text <> None) ->
   prop (Spec.param_set (Main.params s) m) key <> NaN ->
   prop (Spec.param_set (Main.params s') m) key <> NaN) /\
  (forall value,
     getElementById ui (Spec.model_id m ++ "-" ++ key)%string = Some value ->
     key ∈ keys (Spec.param_set Main.default_params m) ->
     ParseFloat.parseFloat value = NaN ->
     let s'' := Main.computeNextPoint s' in
     Main.x s'' = NaN \/ Main.y s'' = NaN \/ Main.z s'' = NaN).
Proof.
  intros Hcur Hkey s'.
  pose proof (prop_update ui s m key Hcur Hkey) as Hprop. fold s' in Hprop.
  split; [| split].
  - intros value Hui. by rewrite Hprop, Hui.
  - intros Hpage Hold. rewrite Hprop.
    destruct (getElementById ui _) as [value |] eqn:Hui; [| done].
    eapply number_not_NaN, Hpage, Hui.
  - intros value Hui Hdefault Hnan.
    apply (NaN_reaches_state s' m key); [| done |].
    + subst s'. by destruct (update_preserves ui s) as (_ & -> & _).
    + by rewrite Hprop, Hui.
Qed.

Lemma parameter_write_unchecked_witness :
  prop (lorenz (Main.params
                  (Main.updateParametersFromUI Main.rho_rewritten_page
                     Main.initial)))
    "rho" = ParseFloat.parseFloat "50".
Proof.
  refine (proj1 (parameter_write_unchecked Main.rho_rewritten_page Main.initial
                   Spec.Lorenz "rho" _ _) "50" _).
  - reflexivity.
  - cbn. rewrite !elem_of_cons. tauto.
  - reflexivity.
Defined.

(** C3 as stated fails: the text [not-a-number] assigned to the rho slider
    of lorenz is not a number, so the slider falls back to its default and
    reads 50; the next frame stores 50, and the previous value 28 is not
    retained. *)
Lemma nonfinite_write_counterexample :
  Range.number "not-a-number" = None /\
  Main.slider_reads "lorenz-rho" "not-a-number" "50" = true /\
  prop (lorenz (Main.params Main.initial)) "rho" = Num 28 /\
  prop (lorenz (Main.params (Main.animate Main.rho_rewritten_page Main.initial)))
    "rho" = Num 50 /\
  prop (lorenz (Main.params (Main.animate Main.rho_rewritten_page Main.initial)))
    "rho" <> prop (lorenz (Main.params Main.initial)) "rho".
Proof.
  split; [reflexivity |]. split; [by vm_compute |]. split; [reflexivity |].
  assert (prop (lorenz (Main.params
                          (Main.animate Main.rho_rewritten_page Main.initial)))
            "rho" = Num 50) as H50;
    [| split; [exact H50 |]; rewrite H50; intros [= H]; lra].
  rewrite params_animate.
  pose proof (prop_update Main.rho_rewritten_page Main.initial Spec.Lorenz "rho"
                eq_refl) as H.
  cbn [Spec.param_set] in H. rewrite H.
  - change (getElementById Main.rho_rewritten_page
              (Spec.model_id Spec.Lorenz ++ "-" ++ "rho"))
      with (Some "50"%string).
    apply parseFloat_50.
  - cbn. rewrite !elem_of_cons. tauto.
Qed.

(** ** Reset and model selection *)

Section ResetFacts.

Import Main.

Lemma trail_reset (s : engine) : trail (resetAttractor s) = [].
Proof. reflexivity. Qed.

Lemma henon_unknown : "henon"%string ∉ models.
Proof.
  unfold models. rewrite !elem_of_cons, elem_of_nil.
  intros [H | [H | [H | [H | [H | [H | []]]]]]]; discriminate.
Qed.

(** The RK4 variant starts aizawa from the scaled point. *)
Lemma rk4_reset_aizawa (s : engine) :
  currentAttractor s = "aizawa"%string ->
  newPoint (Rk4.resetAttractor s) = (Num 1, Num 0, Num 0).
Proof.
  intros Hcur. unfold Rk4.resetAttractor. rewrite Hcur.
  unfold newPoint, updateUIFromParams. cbn.
  f_equal; [f_equal |]; f_equal; lra.
Qed.

Lemma rk4_reset_other (s : engine) :
  currentAttractor s <> "aizawa"%string ->
  newPoint (Rk4.resetAttractor s) = (Num 0.1, Num 0, Num 0).
Proof.
  intros Hcur. unfold Rk4.resetAttractor.
  by apply String.eqb_neq in Hcur as ->.
Qed.

(** The Lorenz-only prototype also restores its four parameters. *)
Lemma proto_reset_parameters (s : Proto.engine) :
  let s' := Proto.resetAttractor s in
  Proto.sigma s' = Num 10 /\ Proto.rho s' = Num 28 /\
  Proto.beta s' = Num 2.666 /\ Proto.dt s' = Num 0.01.
Proof. done. Qed.

End ResetFacts.

(** C5, as the code has it: in every state, [resetAttractor] of main.js
    puts the state vector at (0.1, 0, 0) whatever the active model is,
    empties the trail (the live count is 0 and both render buffers are
    zeroed), and leaves the parameters of every model and the active model as
    they are.  The RK4 variant does the same except that it starts aizawa
    from the scaled point (0.1 * 10, 0, 0); the Lorenz-only prototype also
    restores its four parameters to their defaults. *)
Theorem reset_effect (s : Main.engine) (q : Proto.engine) :
  (let s' := Main.resetAttractor s in
   Main.newPoint s' = (Num 0.1, Num 0, Num 0) /\
   Main.pointCount s' = 0 /\
   Main.trail s' = [] /\
   Main.positions s' = replicate (length (Main.positions s)) (Num 0) /\
   Main.colors s' = replicate (length (Main.colors s)) (Num 0) /\
   Main.params s' = Main.params s /\
   Main.currentAttractor s' = Main.currentAttractor s) /\
  (let s' := Rk4.resetAttractor s in
   Main.newPoint s' =
     (if String.eqb (Main.currentAttractor s) "aizawa"
      then (Num 1, Num 0, Num 0) else (Num 0.1, Num 0, Num 0)) /\
   Main.pointCount s' = 0 /\
   Main.trail s' = [] /\
   Main.params s' = Main.params s /\
   Main.currentAttractor s' = Main.currentAttractor s) /\
  (let q' := Proto.resetAttractor q in
   (Proto.x q', Proto.y q', Proto.z q') = (Num 0.1, Num 0, Num 0) /\
   Proto.pointCount q' = 0 /\
   (Proto.sigma q', Proto.rho q', Proto.beta q', Proto.dt q') =
     (Num 10, Num 28, Num 2.666, Num 0.01)).
Proof.
  split; [by repeat split |]. split; [| by repeat split].
  cbv zeta. split.
  - destruct (String.eqb_spec (Main.currentAttractor s) "aizawa") as [H | H].
    + by apply rk4_reset_aizawa.
    + by apply rk4_reset_other.
  - unfold Rk4.resetAttractor.
    by destruct (String.eqb (Main.currentAttractor s) "aizawa").
Qed.

(** C5 as stated fails on the RK4 variant: with aizawa selected, its reset
    does not put the state vector at (0.1, 0, 0). *)
Lemma reset_aizawa_counterexample :
  Main.newPoint (Rk4.resetAttractor (Rk4.changeAttractor "aizawa" Main.initial))
    <> (Num 0.1, Num 0, Num 0).
Proof.
  rewrite rk4_reset_aizawa by reflexivity.
  intros [= H]. lra.
Qed.

(** C4, as the code has it: [changeAttractor] never fails and checks
    nothing.  For every identifier, in the model set or not, it makes the
    identifier the active model and resets: state vector (0.1, 0, 0), empty
    trail, parameters untouched. *)
Theorem select_model_unchecked (type : string) (s : Main.engine) :
  let s' := Main.changeAttractor type s in
  Main.currentAttractor s' = type /\
  Main.newPoint s' = (Num 0.1, Num 0, Num 0) /\
  Main.pointCount s' = 0 /\
  Main.trail s' = [] /\
  Main.params s' = Main.params s.
Proof. by repeat split. Qed.

(** C4 as stated fails: selecting [henon], which is not a model, after the
    first frame raises nothing and changes the active model, the state vector
    and the live count. *)
Lemma select_unknown_counterexample :
  ("henon"%string ∉ models) /\
  Main.currentAttractor Main.after_first_frame = "lorenz"%string /\
  Main.pointCount Main.after_first_frame = 1 /\
  Main.newPoint Main.after_first_frame = (Num 0.09, Num 0.028, Num 0) /\
  Main.currentAttractor
    (Main.changeAttractor "henon" Main.after_first_frame) = "henon"%string /\
  Main.pointCount (Main.changeAttractor "henon" Main.after_first_frame) = 0 /\
  Main.newPoint (Main.changeAttractor "henon" Main.after_first_frame) =
    (Num 0.1, Num 0, Num 0).
Proof.
  split; [apply henon_unknown |]. unfold Main.after_first_frame.
  split; [by rewrite currentAttractor_animate |].
  split.
  { rewrite pointCount_animate. pose proof maxPoints_pos.
    cbn [Main.pointCount Main.initial]. by rewrite decide_True. }
  split; [apply main_first_step |]. by repeat split.
Qed.

(** C10: with an active model outside the six-member set, a frame of
    main.js computes zero deltas and leaves the state vector unchanged, and
    still appends that unchanged point, with the colour of its slot, to the
    trail (both as the [Float32Array]s store them): below capacity the live
    count advances by one, at capacity the oldest point is evicted.  Nothing
    is raised, and no parameter changes. *)
Theorem unknown_model_frame (ui : UI) (s : Main.engine) :
  Main.currentAttractor s ∉ models ->
  Main.allocated s ->
  Main.pointCount s <= Main.maxPoints ->
  let s' := Main.animate ui s in
  Main.deltas (Main.updateParametersFromUI ui s) = (Num 0, Num 0, Num 0) /\
  Main.newPoint s' = Main.newPoint s /\
  Main.params s' = Main.params s /\
  Main.trail s' =
    drop (S (Main.pointCount s) - Main.maxPoints) (Main.trail s)
      ++ [stored (Main.newPoint s)] /\
  (Main.pointCount s < Main.maxPoints ->
     Main.pointCount s' = S (Main.pointCount s) /\
     Main.slot (Main.colors s') (Main.pointCount s) =
       stored
         (Main.color_vector
            (Main.getColor (JsNum.of_nat (Main.pointCount s))))) /\
  (Main.pointCount s = Main.maxPoints ->
     Main.pointCount s' = Main.maxPoints /\
     Main.slot (Main.colors s') (Main.maxPoints - 1) =
       stored
         (Main.color_vector
            (Main.getColor (JsNum.of_nat (Main.maxPoints - 1))))).
Proof.
  intros Hcur Halloc Hle s'. pose proof maxPoints_pos as Hpos.
  assert (Main.updateParametersFromUI ui s = s) as Hupd.
  { unfold Main.updateParametersFromUI. by rewrite params_get_None. }
  assert (Main.deltas s = (Num 0, Num 0, Num 0)) as Hdelta.
  { unfold Main.deltas. unfold models in Hcur.
    rewrite !not_elem_of_cons in Hcur.
    destruct Hcur as (H1 & H2 & H3 & H4 & H5 & H6 & _).
    apply String.eqb_neq in H1 as ->. apply String.eqb_neq in H2 as ->.
    apply String.eqb_neq in H3 as ->. apply String.eqb_neq in H4 as ->.
    apply String.eqb_neq in H5 as ->. by apply String.eqb_neq in H6 as ->. }
  assert (Main.newPoint s' = Main.newPoint s) as Hpoint.
  { subst s'. rewrite newPoint_animate, Hupd, newPoint_compute, Hdelta.
    unfold Main.newPoint, Spec.vadd. by rewrite !jsnum_add_0_r. }
  rewrite Hupd. split; [done |]. split; [done |]. split.
  { subst s'. unfold Main.animate. rewrite Hupd.
    destruct (append_preserves (Main.computeNextPoint s)) as (_ & -> & _).
    apply compute_preserves. }
  split.
  { subst s'. rewrite trail_animate by done. by rewrite Hpoint. }
  subst s'. split; intros Hn.
  - split; [by rewrite pointCount_animate, decide_True |].
    rewrite slot_colors_animate, decide_True, decide_True; try done.
    rewrite pointCount_animate, decide_True by done. lia.
  - split; [rewrite pointCount_animate, decide_False; lia |].
    rewrite slot_colors_animate, decide_False, decide_True; try done; try lia.
    rewrite pointCount_animate, decide_False; lia.
Qed.

Lemma unknown_model_frame_witness :
  (Main.currentAttractor Main.unknown_selected ∉ models) /\
  Main.allocated Main.unknown_selected /\
  Main.pointCount Main.unknown_selected <= Main.maxPoints /\
  Main.newPoint (Main.animate Main.created_page Main.unknown_selected) =
    Main.newPoint Main.unknown_selected.
Proof.
  assert (Main.currentAttractor Main.unknown_selected ∉ models) as Hcur.
  { cbn. unfold models. rewrite !elem_of_cons, elem_of_nil.
    intros [H | [H | [H | [H | [H | [H | []]]]]]]; discriminate. }
  assert (Main.allocated Main.unknown_selected) as Halloc.
  { split; cbn; unfold fill0; by rewrite !length_replicate. }
  assert (Main.pointCount Main.unknown_selected <= Main.maxPoints) as Hle.
  { cbn. lia. }
  split; [exact Hcur |]. split; [exact Halloc |]. split; [exact Hle |].
  exact (proj1 (proj2 (unknown_model_frame Main.created_page Main.unknown_selected
                         Hcur Halloc Hle))).
Defined.

(** * Further properties of the code *)

(** ** What a frame does to the parameter objects *)

Section ParameterFrame.

Import Main.

Implicit Types (s : engine) (ui : UI) (m : Spec.Model) (o : ParamSet).

Lemma model_id_inj m m' : Spec.model_id m = Spec.model_id m' -> m = m'.
Proof. by destruct m, m'. Qed.

Lemma param_set_update_inactive ui s m :
  currentAttractor s <> Spec.model_id m ->
  Spec.param_set (params (updateParametersFromUI ui s)) m =
    Spec.param_set (params s) m.
Proof.
  intros Hcur. unfold updateParametersFromUI.
  destruct (params_get (params s) (currentAttractor s)) as [o |] eqn:E;
    [| done].
  apply params_get_Some in E as (m0 & Hm0 & ->).
  cbn [params]. rewrite Hm0. apply param_set_put_ne. congruence.
Qed.

Lemma keys_assign o (k : string) (v : jsnum) :
  k ∈ keys o -> keys (assign o k v) = keys o.
Proof.
  unfold keys. induction o as [| [k' v'] o IH]; simpl.
  - by intros ?%elem_of_nil.
  - intros Hin. destruct (String.eqb_spec k k') as [-> | Hne]; [done |].
    simpl. f_equal. apply IH.
    apply elem_of_cons in Hin as [? | ?]; [contradiction | done].
Qed.

Lemma keys_update_loop ui (name : string) (ks : list string) o :
  (forall k, k ∈ ks -> k ∈ keys o) ->
  keys (fold_left (update_key ui name) ks o) = keys o.
Proof.
  revert o. induction ks as [| k ks IH]; intros o Hks; [done |].
  assert (keys (update_key ui name o k) = keys o) as Hstep.
  { unfold update_key.
    destruct (getElementById ui (name ++ "-" ++ k)%string); [| done].
    apply keys_assign, Hks, elem_of_cons. by left. }
  cbn [fold_left]. rewrite IH; [done |].
  intros k' Hk'. rewrite Hstep. apply Hks, elem_of_cons. by right.
Qed.

Lemma param_set_update_active ui s m :
  currentAttractor s = Spec.model_id m ->
  Spec.param_set (params (updateParametersFromUI ui s)) m =
    fold_left (update_key ui (Spec.model_id m))
      (keys (Spec.param_set (params s) m)) (Spec.param_set (params s) m).
Proof.
  intros Hcur. unfold updateParametersFromUI.
  rewrite Hcur, params_get_model. cbn [params]. apply param_set_put_eq.
Qed.

End ParameterFrame.

(** X1: a frame never changes the parameter object of a model other than
    the active one. *)
Theorem frame_model_isolation (ui : UI) (s : Main.engine) (m : Spec.Model) :
  Main.currentAttractor s <> Spec.model_id m ->
  Spec.param_set (Main.params (Main.animate ui s)) m =
    Spec.param_set (Main.params s) m.
Proof.
  intros Hcur. rewrite params_animate. by apply param_set_update_inactive.
Qed.

Lemma frame_model_isolation_witness :
  Spec.param_set (Main.params (Main.animate Main.bad_rho_page Main.initial))
    Spec.Aizawa = aizawa Main.default_params.
Proof.
  refine (frame_model_isolation Main.bad_rho_page Main.initial Spec.Aizawa _).
  discriminate.
Defined.

(** X2: a frame adds no key to a parameter object and removes none: the
    keys of every model's object, in their order, are after the frame what
    they were before it. *)
Theorem frame_keeps_keys (ui : UI) (s : Main.engine) (m : Spec.Model) :
  keys (Spec.param_set (Main.params (Main.animate ui s)) m) =
    keys (Spec.param_set (Main.params s) m).
Proof.
  rewrite params_animate.
  destruct (decide (Main.currentAttractor s = Spec.model_id m)) as [Hcur | Hcur].
  - rewrite param_set_update_active by done. by apply keys_update_loop.
  - by rewrite param_set_update_inactive.
Qed.

(** X3: a coefficient whose input element is not on the page keeps its
    value through the frame (and a name that is no key stays absent). *)
Theorem missing_input_keeps_parameter (ui : UI) (s : Main.engine)
    (m : Spec.Model) (key : string) :
  getElementById ui (Spec.model_id m ++ "-" ++ key)%string = None ->
  own (Spec.param_set (Main.params (Main.animate ui s)) m) key =
    own (Spec.param_set (Main.params s) m) key.
Proof.
  intros Hui. rewrite params_animate.
  destruct (decide (Main.currentAttractor s = Spec.model_id m)) as [Hcur | Hcur].
  - rewrite param_set_update_active by done.
    rewrite own_update_loop, Hui. by case_decide.
  - by rewrite param_set_update_inactive.
Qed.

Lemma missing_input_keeps_parameter_witness :
  own (lorenz (Main.params
                 (Main.animate (page [("lorenz-rho", "5")]%string) Main.initial)))
    "sigma" = Some (Num 10).
Proof.
  exact (missing_input_keeps_parameter (page [("lorenz-rho", "5")]%string)
           Main.initial Spec.Lorenz "sigma" eq_refl).
Defined.

(** ** The page as created and the default parameters *)

Ltac eval_parse :=
  repeat match goal with
  | |- context [ParseFloat.parseFloat ?t] =>
      let l := eval vm_compute in (ParseFloat.scan t) in
      change (ParseFloat.parseFloat t) with (ParseFloat.value l)
  end.

Lemma value_small (m e : Z) :
  (- 1000000 < IZR m * powerRZ 10 e < 1000000)%R ->
  ParseFloat.value (ParseFloat.Finite m e) = Num (IZR m * powerRZ 10 e).
Proof. by apply value_Finite. Qed.

Lemma num_entry_eq (k : string) (a c : R) (l l' : ParamSet) :
  a = c -> l = l' -> (k, Num a) :: l = (k, Num c) :: l'.
Proof. by intros -> ->. Qed.

(** Every slider reads its [value] attribute, sanitized, when [createUI]
    returns. *)
Lemma created_inputs_as_created :
  Main.as_created Main.created_inputs = true /\
  map fst Main.created_inputs = map Range.id Main.sliders.
Proof. split; by vm_compute. Qed.

Lemma update_loop_created_page (m : Spec.Model) :
  m <> Spec.Thomas ->
  fold_left (Main.update_key Main.created_page (Spec.model_id m))
    (keys (Spec.param_set Main.default_params m))
    (Spec.param_set Main.default_params m) =
  Spec.param_set Main.default_params m.
Proof.
  intros Hm.
  destruct m; try contradiction;
    unfold Main.update_key, getElementById, Main.created_page, page; simpl;
    eval_parse; rewrite !value_small by (simpl; lra);
    repeat (apply num_entry_eq; [simpl; lra |]); reflexivity.
Qed.

(** With thomas active, reading the page as created moves [b] onto the
    slider's grid. *)
Lemma update_loop_created_thomas :
  fold_left (Main.update_key Main.created_page "thomas")
    (keys (thomas Main.default_params)) (thomas Main.default_params) =
  [("b", Num 0.208); ("dt", Num 0.05)]%string.
Proof.
  unfold Main.update_key, getElementById, Main.created_page, page; simpl.
  eval_parse. rewrite !value_small by (simpl; lra).
  repeat (apply num_entry_eq; [simpl; lra |]); reflexivity.
Qed.

(** X4: the sliders [createUI] builds carry the default parameters, but for
    one.  Each slider reads its [value] attribute as the host sanitizes it,
    which is the default of its coefficient except for [thomas-b]: 0.208186 is
    not on that slider's grid (from 0.1 in steps of 0.001), and the slider
    reads 0.208.  So, while the parameters are the defaults and no slider is
    moved, reading the page changes nothing unless thomas is the active
    model; with thomas active it replaces [b] = 0.208186 by 0.208. *)
Theorem created_page_keeps_defaults (s : Main.engine) :
  Main.params s = Main.default_params ->
  Main.as_created Main.created_inputs = true /\
  (Main.currentAttractor s <> "thomas"%string ->
   Main.updateParametersFromUI Main.created_page s = s) /\
  (Main.currentAttractor s = "thomas"%string ->
   thomas (Main.params (Main.updateParametersFromUI Main.created_page s)) =
     [("b", Num 0.208); ("dt", Num 0.05)]%string).
Proof.
  intros Hp. split; [apply created_inputs_as_created |]. split.
  - intros Hcur. unfold Main.updateParametersFromUI.
    destruct (params_get (Main.params s) (Main.currentAttractor s))
      as [o |] eqn:E; [| done].
    apply params_get_Some in E as (m & Hm & ->).
    assert (m <> Spec.Thomas) as Hne by (intros ->; by apply Hcur).
    rewrite Hp, Hm, update_loop_created_page, params_put_same, <- Hm, <- Hp
      by done.
    by destruct s.
  - intros Hcur. unfold Main.updateParametersFromUI. rewrite Hcur, Hp.
    change (params_get Main.default_params "thomas")
      with (Some (thomas Main.default_params)).
    cbv iota beta zeta. cbn [Main.params params_put String.eqb Ascii.eqb
                             Bool.eqb thomas].
    apply update_loop_created_thomas.
Qed.

Lemma created_page_keeps_defaults_witness :
  Main.updateParametersFromUI Main.created_page
    (Main.changeAttractor "dadras" Main.initial) =
  Main.changeAttractor "dadras" Main.initial.
Proof.
  refine (proj1 (proj2 (created_page_keeps_defaults
                          (Main.changeAttractor "dadras" Main.initial)
                          eq_refl)) _).
  discriminate.
Defined.

(** X5: reading the same page twice is reading it once: after
    [updateParametersFromUI], a second call on the same page leaves every
    coefficient of every model as the first call left it. *)
Theorem update_idempotent (ui : UI) (s : Main.engine) (m : Spec.Model)
    (key : string) :
  own (Spec.param_set
         (Main.params
            (Main.updateParametersFromUI ui (Main.updateParametersFromUI ui s)))
         m) key =
  own (Spec.param_set (Main.params (Main.updateParametersFromUI ui s)) m) key.
Proof.
  set (s1 := Main.updateParametersFromUI ui s).
  assert (Main.currentAttractor s1 = Main.currentAttractor s) as Hcur1
    by apply update_preserves.
  destruct (decide (Main.currentAttractor s = Spec.model_id m)) as [Hcur | Hcur].
  - rewrite param_set_update_active by congruence.
    rewrite own_update_loop.
    destruct (decide (key ∈ keys (Spec.param_set (Main.params s1) m)))
      as [Hin | Hnin]; [| done].
    destruct (getElementById ui (Spec.model_id m ++ "-" ++ key)%string)
      as [value |] eqn:Hui; [| done].
    subst s1. rewrite param_set_update_active in * by done.
    rewrite keys_update_loop in Hin by done.
    by rewrite own_update_loop, decide_True, Hui.
  - by rewrite param_set_update_inactive by congruence.
Qed.

(** ** Reset and selection composed *)

Lemma fill0_fill0 (a : list jsnum) : fill0 (fill0 a) = fill0 a.
Proof. unfold fill0. by rewrite length_replicate. Qed.

(** X6: resetting twice is resetting once; selecting a model after another
    selection leaves nothing of the first; and a reset right after a
    selection changes nothing. *)
Theorem reset_idempotent (s : Main.engine) (type type' : string) :
  Main.resetAttractor (Main.resetAttractor s) = Main.resetAttractor s /\
  Main.changeAttractor type (Main.changeAttractor type' s) =
    Main.changeAttractor type s /\
  Main.resetAttractor (Main.changeAttractor type s) =
    Main.changeAttractor type s.
Proof.
  unfold Main.changeAttractor, Main.resetAttractor, Main.updateUIFromParams.
  cbn [Main.params Main.currentAttractor Main.positions Main.colors].
  by rewrite !fill0_fill0.
Qed.

(** ** Invariants of the reachable states *)

Section ReachableFacts.

Import Main.

Implicit Types (s : engine) (ui : UI).

Lemma buffers_animate ui s :
  let v := newPoint (animate ui s) in
  positions (animate ui s) =
    (if decide (pointCount s < maxPoints)
     then store3 (positions s) (pointCount s) v
     else store3 (shifted (maxPoints - 1) (positions s)) (maxPoints - 1) v) /\
  colors (animate ui s) =
    (if decide (pointCount s < maxPoints)
     then store3 (colors s) (pointCount s)
            (color_vector (getColor (JsNum.of_nat (pointCount s))))
     else store3 (shifted (maxPoints - 1) (colors s)) (maxPoints - 1)
            (color_vector (getColor (JsNum.of_nat (maxPoints - 1))))).
Proof.
  cbv zeta. rewrite newPoint_animate. unfold animate.
  set (s1 := computeNextPoint (updateParametersFromUI ui s)).
  assert (pointCount s1 = pointCount s /\ positions s1 = positions s /\
          colors s1 = colors s) as (Hn & Hp & Hc).
  { subst s1.
    destruct (compute_preserves (updateParametersFromUI ui s))
      as (_ & _ & -> & -> & ->).
    by destruct (update_preserves ui s) as (_ & _ & -> & -> & ->). }
  rewrite append_unfold, Hn, Hp, Hc. by case_decide.
Qed.

Lemma slot_zeros (n i : nat) :
  i * 3 + 2 < n -> slot (replicate n (Num 0)) i = (Num 0, Num 0, Num 0).
Proof.
  intros Hi. unfold slot.
  by rewrite !(read_lookup _ _ (Num 0)) by (apply lookup_replicate_2; lia).
Qed.

(** The cells past the live count hold what the last reset put there. *)
Lemma reachable_clean s (i : nat) :
  reachable s -> pointCount s <= i < maxPoints ->
  slot (positions s) i = (Num 0, Num 0, Num 0) /\
  slot (colors s) i = (Num 0, Num 0, Num 0).
Proof.
  intros Hs. revert i.
  induction Hs as [| ui s Hs IH | s Hs _ | type s Hs _]; intros i Hi.
  - split; apply slot_zeros; lia.
  - destruct (buffers_animate ui s) as [-> ->].
    rewrite pointCount_animate in Hi.
    destruct (decide (pointCount s < maxPoints)) as [Hlt | Hge]; [| lia].
    rewrite !slot_store3_ne by lia. apply IH. lia.
  - destruct (reachable_invariant s Hs) as [[Hp Hc] _].
    split; simpl; unfold fill0; apply slot_zeros; lia.
  - destruct (reachable_invariant s Hs) as [[Hp Hc] _].
    split; simpl; unfold fill0; apply slot_zeros; lia.
Qed.

Lemma x_animate ui s :
  let d := deltas (updateParametersFromUI ui s) in
  x (animate ui s) = JsNum.add (x s) (fst (fst d)) /\
  y (animate ui s) = JsNum.add (y s) (snd (fst d)) /\
  z (animate ui s) = JsNum.add (z s) (snd d).
Proof.
  cbv zeta. pose proof (newPoint_animate ui s) as H.
  rewrite newPoint_compute in H.
  destruct (update_preserves ui s) as (Hp & _). rewrite Hp in H.
  destruct (deltas (updateParametersFromUI ui s)) as [[dx dy] dz].
  unfold newPoint, Spec.vadd in H. cbn [fst snd].
  by injection H as -> -> ->.
Qed.

End ReachableFacts.

(** X7: in every state the script can reach, both render buffers have the
    length they were created with, the live count is within the capacity,
    and every slot from the live count on holds zeros in both buffers: no
    point of an earlier run is left past the live part. *)
Theorem reachable_buffers (s : Main.engine) (i : nat) :
  Main.reachable s ->
  Main.allocated s /\
  Main.pointCount s <= Main.maxPoints /\
  (Main.pointCount s <= i < Main.maxPoints ->
   Main.slot (Main.positions s) i = (Num 0, Num 0, Num 0) /\
   Main.slot (Main.colors s) i = (Num 0, Num 0, Num 0)).
Proof.
  intros Hs. destruct (reachable_invariant s Hs) as [Ha Hn].
  split; [done |]. split; [done |]. intros Hi. by apply reachable_clean.
Qed.

Lemma reachable_buffers_witness :
  Main.reachable (Main.changeAttractor "chen" Main.after_first_frame) /\
  Main.pointCount (Main.changeAttractor "chen" Main.after_first_frame)
    <= Main.maxPoints.
Proof.
  assert (Main.reachable (Main.changeAttractor "chen" Main.after_first_frame))
    as Hs by (apply Main.reach_change, Main.reach_animate, Main.reach_initial).
  split; [exact Hs |].
  exact (proj1 (proj2 (reachable_buffers _ 0 Hs))).
Defined.

(** X8: NaN does not leave the state vector: a coordinate that is NaN is
    still NaN after any number of frames, whatever the pages hold (only
    [resetAttractor] and [changeAttractor] assign it anew). *)
Theorem NaN_persists (uis : list UI) (s : Main.engine) :
  (Main.x s = NaN -> Main.x (Main.run uis s) = NaN) /\
  (Main.y s = NaN -> Main.y (Main.run uis s) = NaN) /\
  (Main.z s = NaN -> Main.z (Main.run uis s) = NaN).
Proof.
  revert s. induction uis as [| ui uis IH]; intros s; [done |].
  cbn [Main.run fold_left]. fold (Main.run uis (Main.animate ui s)).
  destruct (IH (Main.animate ui s)) as (IHx & IHy & IHz).
  destruct (x_animate ui s) as (Hx & Hy & Hz).
  repeat split; intros Hnan.
  - apply IHx. by rewrite Hx, Hnan.
  - apply IHy. by rewrite Hy, Hnan.
  - apply IHz. by rewrite Hz, Hnan.
Qed.

Lemma NaN_persists_witness :
  Main.y (Main.animate Main.bad_rho_page Main.initial) = NaN /\
  Main.y (Main.run [Main.created_page]
            (Main.animate Main.bad_rho_page Main.initial)) = NaN.
Proof.
  assert (Main.y (Main.animate Main.bad_rho_page Main.initial) = NaN) as Hy.
  { destruct (x_animate Main.bad_rho_page Main.initial) as (_ & -> & _).
    reflexivity. }
  split; [exact Hy |].
  exact (proj1 (proj2 (NaN_persists [Main.created_page]
                         (Main.animate Main.bad_rho_page Main.initial))) Hy).
Defined.

(** ** Steps that do not move the state *)

Section FixedPoints.

Import Main.

#[local] Open Scope R_scope.

Implicit Types (s : engine) (m : Spec.Model).

Lemma isFinite_Num (u : jsnum) : isFinite u = true -> exists a : R, u = Num a.
Proof. destruct u as [a | | |]; try discriminate. by exists a. Qed.

(** Euler: nothing is added where the derivative is zero or the step is. *)
Lemma euler_step_still (f : Vector3 -> Vector3) (h a c e fa fc fe : R) :
  f (Num a, Num c, Num e) = (Num fa, Num fc, Num fe) ->
  h * fa = 0 -> h * fc = 0 -> h * fe = 0 ->
  Spec.euler_step f (Num h) (Num a, Num c, Num e) = (Num a, Num c, Num e).
Proof.
  intros Hf Ha Hc He. unfold Spec.euler_step. rewrite Hf.
  cbn [Spec.vscale Spec.vadd JsNum.mul JsNum.add].
  rewrite Ha, Hc, He. f_equal; [f_equal |]; f_equal; lra.
Qed.

Lemma newPoint_compute_euler s m :
  currentAttractor s = Spec.model_id m ->
  newPoint (computeNextPoint s) =
    Spec.euler_step (Spec.derivative m (Spec.param_set (params s) m))
      (prop (Spec.param_set (params s) m) "dt") (newPoint s).
Proof.
  intros Hcur. rewrite newPoint_compute. unfold Spec.euler_step. f_equal.
  by apply deltas_euler.
Qed.

(** RK4: a zero of the derivative is a fixed point of the scheme. *)
Lemma rk4_step_still (f : Vector3 -> Vector3) (h a c e : R) :
  f (Num a, Num c, Num e) = (Num 0, Num 0, Num 0) ->
  Spec.rk4_step f (Num h) (Num a, Num c, Num e) = (Num a, Num c, Num e).
Proof.
  intros Hf. unfold Spec.rk4_step.
  assert (forall t : R, Num (t + h * 0 / 2) = Num t) as Hhalf
    by (intros t; f_equal; lra).
  assert (forall t : R, Num (t + h * 0) = Num t) as Hfull
    by (intros t; f_equal; lra).
  rewrite Hf. cbn [Spec.vscale Spec.vdiv Spec.vadd JsNum.mul].
  rewrite !jsnum_div_Num by lra. cbn [JsNum.add]. rewrite !Hhalf, Hf.
  cbn [Spec.vscale Spec.vdiv Spec.vadd JsNum.mul].
  rewrite !jsnum_div_Num by lra. cbn [JsNum.add]. rewrite !Hhalf, Hf.
  cbn [Spec.vscale Spec.vdiv Spec.vadd JsNum.mul JsNum.add].
  rewrite !Hfull, Hf.
  cbn [Spec.vscale Spec.vdiv Spec.vadd JsNum.mul JsNum.add].
  rewrite !jsnum_div_Num by lra. cbn [JsNum.add].
  f_equal; [f_equal |]; f_equal; lra.
Qed.

End FixedPoints.

Ltac finite_prop Hfin k :=
  let r := fresh "r" in
  let Hr := fresh "Hr" in
  destruct (isFinite_Num _ (Hfin k%string
                              ltac:(cbn; rewrite !elem_of_cons; tauto)))
    as [r Hr];
  rewrite ?Hr.

Section Equilibria.

Import Main.

#[local] Open Scope R_scope.

Implicit Types (s : engine) (m : Spec.Model).

(** The derivative of lorenz, thomas and dadras vanishes at the origin:
    there every term is a finite coefficient times zero.  (That of chen has
    the factor [c - a], a difference of two coefficients.) *)
Lemma derivative_origin m (o : ParamSet) :
  m <> Spec.Aizawa -> m <> Spec.Rossler -> m <> Spec.Chen ->
  (forall k, k ∈ keys (Spec.param_set default_params m) ->
     isFinite (prop o k) = true) ->
  Spec.derivative m o (Num 0, Num 0, Num 0) = (Num 0, Num 0, Num 0).
Proof.
  intros Ha Hr Hc Hfin. unfold Spec.derivative.
  destruct m; try contradiction; cbv zeta.
  - finite_prop Hfin "sigma". finite_prop Hfin "rho". finite_prop Hfin "beta".
    cbn. f_equal; [f_equal |]; f_equal; lra.
  - finite_prop Hfin "b". cbn. rewrite sin_0.
    f_equal; [f_equal |]; f_equal; lra.
  - finite_prop Hfin "a". finite_prop Hfin "b". finite_prop Hfin "c".
    finite_prop Hfin "d". finite_prop Hfin "e".
    cbn. f_equal; [f_equal |]; f_equal; lra.
Qed.

End Equilibria.

(** X10: in main.js a state where the derivative of the active model
    vanishes is a fixed point of [computeNextPoint], for every finite state
    vector and finite [dt]. *)
Theorem euler_equilibrium (s : Main.engine) (m : Spec.Model) (h a c e : R) :
  Main.currentAttractor s = Spec.model_id m ->
  Main.newPoint s = (Num a, Num c, Num e) ->
  prop (Spec.param_set (Main.params s) m) "dt" = Num h ->
  Spec.derivative m (Spec.param_set (Main.params s) m) (Main.newPoint s) =
    (Num 0, Num 0, Num 0) ->
  Main.newPoint (Main.computeNextPoint s) = Main.newPoint s.
Proof.
  intros Hcur Hpoint Hdt Hzero.
  rewrite (newPoint_compute_euler s m Hcur), Hdt. rewrite Hpoint in *.
  apply (euler_step_still _ h a c e 0 0 0 Hzero); lra.
Qed.

(** X11: in the RK4 variant a state where the derivative function of the
    active model vanishes is a fixed point of [computeNextPoint], for every
    finite state vector and finite [dt]: the four stages all read the same
    state. *)
Theorem rk4_equilibrium (s : Main.engine) (m : Spec.Model) (h a c e : R) :
  Main.currentAttractor s = Spec.model_id m ->
  Main.newPoint s = (Num a, Num c, Num e) ->
  prop (Spec.param_set (Main.params s) m) "dt" = Num h ->
  Rk4.derivative (Main.params s) m (Main.newPoint s) = (Num 0, Num 0, Num 0) ->
  Main.newPoint (Rk4.computeNextPoint s) = Main.newPoint s.
Proof.
  intros Hcur Hpoint Hdt Hzero.
  rewrite (rk4_compute_step s m Hcur), Hdt. rewrite Hpoint in *.
  by apply rk4_step_still.
Qed.

(** X12: with lorenz, thomas or dadras active and finite coefficients, the
    origin is a fixed point of the step, in main.js and in the RK4 variant
    alike: a trajectory started there never leaves. *)
Theorem origin_fixed (s : Main.engine) (m : Spec.Model) :
  m <> Spec.Aizawa -> m <> Spec.Rossler -> m <> Spec.Chen ->
  Main.currentAttractor s = Spec.model_id m ->
  Main.newPoint s = (Num 0, Num 0, Num 0) ->
  (forall k, k ∈ keys (Spec.param_set Main.default_params m) ->
     isFinite (prop (Spec.param_set (Main.params s) m) k) = true) ->
  Main.newPoint (Main.computeNextPoint s) = (Num 0, Num 0, Num 0) /\
  Main.newPoint (Rk4.computeNextPoint s) = (Num 0, Num 0, Num 0).
Proof.
  intros Ha Hr Hc Hcur Hpoint Hfin.
  pose proof (derivative_origin m _ Ha Hr Hc Hfin) as Hzero.
  destruct (isFinite_Num _ (Hfin "dt"%string
              ltac:(destruct m; cbn; rewrite !elem_of_cons; tauto)))
    as [h Hdt].
  split.
  - rewrite (newPoint_compute_euler s m Hcur), Hdt, Hpoint.
    apply (euler_step_still _ h 0 0 0 0 0 0 Hzero); lra.
  - rewrite (rk4_compute_step s m Hcur), Hdt, Hpoint.
    apply rk4_step_still. by rewrite rk4_derivative_table.
Qed.

Lemma euler_equilibrium_witness :
  Main.newPoint
    (Main.computeNextPoint (with_point (Num 0, Num 0, Num 0) Main.initial)) =
  (Num 0, Num 0, Num 0).
Proof.
  refine (euler_equilibrium (with_point (Num 0, Num 0, Num 0) Main.initial)
            Spec.Lorenz 0.01 0 0 0 eq_refl eq_refl eq_refl _).
  cbn. f_equal; [f_equal |]; f_equal; lra.
Defined.

Lemma rk4_equilibrium_witness :
  Main.newPoint
    (Rk4.computeNextPoint (with_point (Num 0, Num 0, Num 0) Main.initial)) =
  (Num 0, Num 0, Num 0).
Proof.
  refine (rk4_equilibrium (with_point (Num 0, Num 0, Num 0) Main.initial)
            Spec.Lorenz 0.01 0 0 0 eq_refl eq_refl eq_refl _).
  unfold Rk4.derivative, Rk4.lorenzDerivatives. cbn.
  f_equal; [f_equal |]; f_equal; lra.
Defined.

Lemma origin_fixed_witness :
  Main.newPoint
    (Main.computeNextPoint
       (with_point (Num 0, Num 0, Num 0)
          (Main.changeAttractor "thomas" Main.initial))) =
  (Num 0, Num 0, Num 0).
Proof.
  refine (proj1 (origin_fixed
                   (with_point (Num 0, Num 0, Num 0)
                      (Main.changeAttractor "thomas" Main.initial))
                   Spec.Thomas _ _ _ eq_refl eq_refl _)).
  - discriminate.
  - discriminate.
  - discriminate.
  - intros k Hk. cbn in Hk. rewrite !elem_of_cons, elem_of_nil in Hk.
    destruct Hk as [-> | [-> | []]]; reflexivity.
Defined.

(** ** Symmetries of the models *)

Section Symmetries.

Import Main.

#[local] Open Scope R_scope.

Implicit Types (s : engine).

Lemma newPoint_with_point (v : Vector3) s : newPoint (with_point v s) = v.
Proof. by destruct v as [[a c] e]. Qed.

Lemma with_point_frame (v : Vector3) s :
  params (with_point v s) = params s /\
  currentAttractor (with_point v s) = currentAttractor s.
Proof. by destruct v as [[a c] e]. Qed.

End Symmetries.

Section Negation.

#[local] Open Scope R_scope.

Lemma signed_inf_opp (a : R) :
  JsNum.signed_inf (- a) = JsNum.neg (JsNum.signed_inf a).
Proof.
  unfold JsNum.signed_inf.
  destruct (Rlt_dec 0 (- a)), (Rlt_dec (- a) 0), (Rlt_dec 0 a), (Rlt_dec a 0);
    try reflexivity; lra.
Qed.

Lemma neg_neg (u : jsnum) : JsNum.neg (JsNum.neg u) = u.
Proof. destruct u as [a | | |]; simpl; try reflexivity. f_equal. lra. Qed.

Lemma neg_add (u v : jsnum) :
  JsNum.add (JsNum.neg u) (JsNum.neg v) = JsNum.neg (JsNum.add u v).
Proof.
  destruct u as [a | | |], v as [c | | |]; simpl; try reflexivity.
  f_equal. lra.
Qed.

Lemma neg_sub (u v : jsnum) :
  JsNum.sub (JsNum.neg u) (JsNum.neg v) = JsNum.neg (JsNum.sub u v).
Proof.
  destruct u as [a | | |], v as [c | | |]; simpl; try reflexivity.
  f_equal. lra.
Qed.

Lemma neg_mul_l (u v : jsnum) :
  JsNum.mul (JsNum.neg u) v = JsNum.neg (JsNum.mul u v).
Proof.
  destruct u as [a | | |], v as [c | | |]; simpl;
    rewrite ?signed_inf_opp, ?neg_neg; try reflexivity.
  f_equal. lra.
Qed.

Lemma neg_mul_r (u v : jsnum) :
  JsNum.mul u (JsNum.neg v) = JsNum.neg (JsNum.mul u v).
Proof. by rewrite jsnum_mul_comm, neg_mul_l, jsnum_mul_comm. Qed.

End Negation.

(** X13: the lorenz step of main.js commutes with the half turn about the
    z axis, (x, y, z) to (-x, -y, z): the step from the turned state is the
    step, turned.  It holds for every value of the state and of the
    coefficients, NaN and the infinities included. *)
Theorem lorenz_reflection (s : Main.engine) :
  Main.currentAttractor s = "lorenz"%string ->
  Main.newPoint
    (Main.computeNextPoint (with_point (reflect (Main.newPoint s)) s)) =
    reflect (Main.newPoint (Main.computeNextPoint s)).
Proof.
  intros Hcur.
  unfold Main.newPoint, Main.computeNextPoint, Main.deltas, with_point, reflect.
  cbn [Main.x Main.y Main.z Main.params Main.currentAttractor].
  rewrite Hcur. eval_string_tests. cbv zeta.
  cbn [Main.x Main.y Main.z].
  rewrite neg_sub, !neg_mul_l, !neg_mul_r, neg_neg, !neg_mul_l, !neg_sub,
    !neg_mul_l, !neg_add.
  reflexivity.
Qed.

Lemma lorenz_reflection_witness :
  Main.newPoint
    (Main.computeNextPoint
       (with_point (reflect (Main.newPoint Main.initial)) Main.initial)) =
  reflect (Main.newPoint (Main.computeNextPoint Main.initial)).
Proof. exact (lorenz_reflection Main.initial eq_refl). Defined.

(** X14: the thomas step of main.js commutes with the cyclic shift of the
    coordinates: the step from (y, z, x) is the step from (x, y, z),
    shifted the same way.  It holds for every value, NaN and the infinities
    included. *)
Theorem thomas_cyclic (s : Main.engine) :
  Main.currentAttractor s = "thomas"%string ->
  Main.newPoint
    (Main.computeNextPoint (with_point (rotate (Main.newPoint s)) s)) =
    rotate (Main.newPoint (Main.computeNextPoint s)).
Proof.
  intros Hcur.
  unfold Main.newPoint, Main.computeNextPoint, Main.deltas, with_point, rotate.
  cbn [Main.x Main.y Main.z Main.params Main.currentAttractor].
  rewrite Hcur. eval_string_tests. reflexivity.
Qed.

Lemma thomas_cyclic_witness :
  Main.newPoint
    (Main.computeNextPoint
       (with_point (Num 0, Num 0, Num 0.1)
          (Main.changeAttractor "thomas" Main.initial))) =
  rotate (Main.newPoint
            (Main.computeNextPoint
               (Main.changeAttractor "thomas" Main.initial))).
Proof.
  exact (thomas_cyclic (Main.changeAttractor "thomas" Main.initial) eq_refl).
Defined.

(** ** The colour function *)

(** X16: for every finite index, the three channels [getColor] returns are
    finite numbers between 0 and 1. *)
Theorem color_channels (t : R) :
  exists r g b : R,
    Main.getColor (Num t) =
      {| Main.r := Num r; Main.g := Num g; Main.b := Num b |} /\
    (0 <= r <= 1)%R /\ (0 <= g <= 1)%R /\ (0 <= b <= 1)%R.
Proof.
  rewrite getColor_Num. cbv zeta.
  set (phi := (t / INR Main.maxPoints * PI * 2)%R).
  eexists _, _, _. split; [reflexivity |].
  pose proof (SIN_bound phi). pose proof (SIN_bound (phi + 2 * PI / 3)).
  pose proof (SIN_bound (phi + 4 * PI / 3)).
  repeat split; lra.
Qed.

(** X22: for every slot index below the capacity, the colour [getColor]
    computes in binary64 and the colour of exact arithmetic have finite
    channels, and each channel of the one is within 5e-13 of the same
    channel of the other. *)
Theorem getColor_binary64 (i : nat) :
  i < Main.maxPoints ->
  exists r g b r0 g0 b0 : R,
    Binary64.getColor (JsNum.of_nat i) =
      {| Main.r := Num r; Main.g := Num g; Main.b := Num b |} /\
    Main.getColor (JsNum.of_nat i) =
      {| Main.r := Num r0; Main.g := Num g0; Main.b := Num b0 |} /\
    (Rabs (r - r0) <= 0.0000000000005)%R /\
    (Rabs (g - g0) <= 0.0000000000005)%R /\
    (Rabs (b - b0) <= 0.0000000000005)%R.
Proof.
  intros Hi. unfold JsNum.of_nat. rewrite getColor_Num. cbv zeta.
  rewrite INR_maxPoints.
  assert (0 <= INR i <= 10000)%R as Hn.
  { split; [apply pos_INR |]. rewrite <- INR_maxPoints. apply le_INR. lia. }
  destruct (getColor64_near (INR i)) as (r & g & b & -> & Hr & Hg & Hb);
    [lra |].
  by eexists r, g, b, _, _, _.
Qed.

Lemma getColor_binary64_witness :
  0 < Main.maxPoints /\
  exists r g b r0 g0 b0 : R,
    Binary64.getColor (JsNum.of_nat 0) =
      {| Main.r := Num r; Main.g := Num g; Main.b := Num b |} /\
    Main.getColor (JsNum.of_nat 0) =
      {| Main.r := Num r0; Main.g := Num g0; Main.b := Num b0 |} /\
    (Rabs (r - r0) <= 0.0000000000005)%R /\
    (Rabs (g - g0) <= 0.0000000000005)%R /\
    (Rabs (b - b0) <= 0.0000000000005)%R.
Proof.
  split; [exact maxPoints_pos |].
  exact (getColor_binary64 0 maxPoints_pos).
Defined.

(** ** The Lorenz-only prototype, frame by frame *)

Section PrototypeFrame.

Import Proto.

Implicit Types (q : engine) (ui : UI).

(** [updateParameters] touches the four parameters only, also when it
    throws. *)
Lemma updateParameters_frame ui q q' :
  updateParameters ui q = Returned q' \/ updateParameters ui q = Thrown q' ->
  (x q', y q', z q') = (x q, y q, z q) /\
  pointCount q' = pointCount q /\ positions q' = positions q.
Proof.
  unfold updateParameters.
  destruct (getElementById ui "sigma"), (getElementById ui "rho"),
    (getElementById ui "beta"), (getElementById ui "speed");
    intros [[= <-] | [= <-]]; done.
Qed.

End PrototypeFrame.

(** X17: a frame of the prototype throws exactly when one of its four
    inputs is missing from the page.  The exception leaves the state vector,
    the live count and the buffer as they were, but [sigma] has already been
    overwritten when its own input is there. *)
Theorem prototype_frame_throws (ui : UI) (q : Proto.engine) :
  ((exists q', Proto.animate ui q = Proto.Thrown q') <->
   (exists id, id ∈ ["sigma"; "rho"; "beta"; "speed"]%string /\
               getElementById ui id = None)) /\
  (forall q', Proto.animate ui q = Proto.Thrown q' ->
     (Proto.x q', Proto.y q', Proto.z q') = (Proto.x q, Proto.y q, Proto.z q) /\
     Proto.pointCount q' = Proto.pointCount q /\
     Proto.positions q' = Proto.positions q /\
     (forall value, getElementById ui "sigma" = Some value ->
        Proto.sigma q' = ParseFloat.parseFloat value)).
Proof.
  split; [split |].
  - intros [q' H]. unfold Proto.animate, Proto.updateParameters in H.
    destruct (getElementById ui "sigma") eqn:E1;
      [| exists "sigma"%string; rewrite !elem_of_cons; tauto].
    destruct (getElementById ui "rho") eqn:E2;
      [| exists "rho"%string; rewrite !elem_of_cons; tauto].
    destruct (getElementById ui "beta") eqn:E3;
      [| exists "beta"%string; rewrite !elem_of_cons; tauto].
    destruct (getElementById ui "speed") eqn:E4;
      [discriminate | exists "speed"%string; rewrite !elem_of_cons; tauto].
  - intros (id & Hid & Hnone).
    rewrite !elem_of_cons, elem_of_nil in Hid.
    unfold Proto.animate, Proto.updateParameters.
    destruct Hid as [-> | [-> | [-> | [-> | []]]]]; rewrite ?Hnone;
      repeat (destruct (getElementById ui _); rewrite ?Hnone);
      by eexists.
  - intros q' H. unfold Proto.animate in H.
    destruct (Proto.updateParameters ui q) as [q1 | q1] eqn:E; [done |].
    injection H as <-.
    destruct (updateParameters_frame ui q q1 (or_intror E)) as (Hv & Hn & Hp).
    repeat split; try done.
    intros value Hs. unfold Proto.updateParameters in E. rewrite Hs in E.
    destruct (getElementById ui "rho"), (getElementById ui "beta"),
      (getElementById ui "speed"); try discriminate; by injection E as <-.
Qed.

Lemma prototype_frame_throws_witness :
  exists q', Proto.animate (page [("sigma", "12")]%string) Proto.initial =
             Proto.Thrown q'.
Proof.
  apply (proj2 (proj1 (prototype_frame_throws (page [("sigma", "12")]%string)
                         Proto.initial))).
  exists "rho"%string. split; [| reflexivity].
  rewrite !elem_of_cons. tauto.
Defined.

Section PrototypeRefined.

Import Main.

Implicit Types (s : engine) (ui : UI).

(** The lorenz step of main.js right after the page was read. *)
Lemma lorenz_step_after_update ui s (v1 v2 v3 v4 : string) :
  currentAttractor s = "lorenz"%string ->
  keys (lorenz (params s)) = ["sigma"; "rho"; "beta"; "dt"]%string ->
  getElementById ui "lorenz-sigma" = Some v1 ->
  getElementById ui "lorenz-rho" = Some v2 ->
  getElementById ui "lorenz-beta" = Some v3 ->
  getElementById ui "lorenz-dt" = Some v4 ->
  newPoint (animate ui s) =
    let sigma := ParseFloat.parseFloat v1 in
    let rho := ParseFloat.parseFloat v2 in
    let beta := ParseFloat.parseFloat v3 in
    let dt := ParseFloat.parseFloat v4 in
    (JsNum.add (x s) (JsNum.mul (JsNum.mul sigma (JsNum.sub (y s) (x s))) dt),
     JsNum.add (y s)
       (JsNum.mul (JsNum.sub (JsNum.mul (x s) (JsNum.sub rho (z s))) (y s)) dt),
     JsNum.add (z s)
       (JsNum.mul (JsNum.sub (JsNum.mul (x s) (y s)) (JsNum.mul beta (z s))) dt)).
Proof.
  intros Hcur Hkeys H1 H2 H3 H4. rewrite newPoint_animate.
  set (s1 := updateParametersFromUI ui s).
  assert (forall key value,
            key ∈ ["sigma"; "rho"; "beta"; "dt"]%string ->
            getElementById ui ("lorenz-" ++ key)%string = Some value ->
            prop (lorenz (params s1)) key = ParseFloat.parseFloat value)
    as Hprop.
  { intros key value Hin Hui. subst s1.
    pose proof (prop_update ui s Spec.Lorenz key Hcur) as H.
    cbn [Spec.param_set Spec.model_id] in H.
    rewrite Hkeys in H. specialize (H Hin).
    change ("lorenz" ++ "-" ++ key)%string with ("lorenz-" ++ key)%string in H.
    by rewrite Hui in H. }
  destruct (update_preserves ui s) as (Hpoint & Hcur1 & _).
  fold s1 in Hpoint, Hcur1.
  unfold newPoint in Hpoint. injection Hpoint as Hx Hy Hz.
  unfold newPoint, computeNextPoint, deltas.
  rewrite Hcur1, Hcur. eval_string_tests. cbv zeta.
  rewrite (Hprop "sigma"%string v1), (Hprop "rho"%string v2),
    (Hprop "beta"%string v3), (Hprop "dt"%string v4)
    by (done || (rewrite !elem_of_cons; tauto)).
  cbn [x y z]. by rewrite Hx, Hy, Hz.
Qed.

End PrototypeRefined.

Section PrototypeSteps.

Import Proto.

Implicit Types (q : engine) (ui : UI).

Lemma prototype_reads ui q (v1 v2 v3 v4 : string) :
  getElementById ui "sigma" = Some v1 ->
  getElementById ui "rho" = Some v2 ->
  getElementById ui "beta" = Some v3 ->
  getElementById ui "speed" = Some v4 ->
  animate ui q =
    Returned (append (computeLorenz (read_parameters v1 v2 v3 v4 q))).
Proof.
  intros H1 H2 H3 H4. unfold animate, updateParameters.
  by rewrite H1, H2, H3, H4.
Qed.

Lemma prototype_append q :
  (x (append q), y (append q), z (append q)) = (x q, y q, z q) /\
  pointCount (append q) =
    (if decide (pointCount q < Main.maxPoints) then S (pointCount q)
     else pointCount q) /\
  positions (append q) =
    (if decide (pointCount q < Main.maxPoints)
     then Main.store3 (positions q) (pointCount q) (x q, y q, z q)
     else Main.store3 (Main.shifted (Main.maxPoints - 1) (positions q))
            (Main.maxPoints - 1) (x q, y q, z q)).
Proof. unfold append, Main.shifted. by case_decide. Qed.

End PrototypeSteps.

(** X18: main.js with lorenz selected does what the prototype does.  From
    states that show the same point and the same trail, on pages whose four
    lorenz inputs hold the same text as the prototype's four inputs, one
    frame of each leads to states that again show the same point and the same
    trail. *)
Theorem main_refines_prototype (up um : UI) (q : Proto.engine)
    (s : Main.engine) (v1 v2 v3 v4 : string) :
  getElementById up "sigma" = Some v1 ->
  getElementById up "rho" = Some v2 ->
  getElementById up "beta" = Some v3 ->
  getElementById up "speed" = Some v4 ->
  getElementById um "lorenz-sigma" = Some v1 ->
  getElementById um "lorenz-rho" = Some v2 ->
  getElementById um "lorenz-beta" = Some v3 ->
  getElementById um "lorenz-dt" = Some v4 ->
  Main.currentAttractor s = "lorenz"%string ->
  keys (lorenz (Main.params s)) = ["sigma"; "rho"; "beta"; "dt"]%string ->
  Proto.same_view q s ->
  exists q', Proto.animate up q = Proto.Returned q' /\
             Proto.same_view q' (Main.animate um s).
Proof.
  intros Hp1 Hp2 Hp3 Hp4 Hm1 Hm2 Hm3 Hm4 Hcur Hkeys (Hv & Hn & Hpos).
  unfold Main.newPoint in Hv. injection Hv as Hx Hy Hz.
  rewrite (prototype_reads up q v1 v2 v3 v4 Hp1 Hp2 Hp3 Hp4).
  eexists. split; [reflexivity |].
  pose proof (lorenz_step_after_update um s v1 v2 v3 v4
                Hcur Hkeys Hm1 Hm2 Hm3 Hm4) as Hnew. cbv zeta in Hnew.
  destruct (buffers_animate um s) as [Hbuf _]. cbv zeta in Hbuf.
  destruct (prototype_append
              (Proto.computeLorenz (Proto.read_parameters v1 v2 v3 v4 q)))
    as (Hv' & Hn' & Hp').
  unfold Proto.same_view. rewrite Hv', Hn', Hp'.
  rewrite pointCount_animate, Hbuf, Hnew, <- Hx, <- Hy, <- Hz, <- Hn, <- Hpos.
  repeat split.
Qed.

Lemma main_refines_prototype_witness :
  exists q',
    Proto.animate
      (page [("sigma", "10"); ("rho", "28"); ("beta", "2.666");
             ("speed", "0.01")]%string)
      Proto.initial = Proto.Returned q' /\
    Proto.same_view q' (Main.animate Main.created_page Main.initial).
Proof.
  refine (main_refines_prototype
            (page [("sigma", "10"); ("rho", "28"); ("beta", "2.666");
                   ("speed", "0.01")]%string)
            Main.created_page Proto.initial Main.initial
            "10" "28" "2.666" "0.01"
            eq_refl eq_refl eq_refl eq_refl eq_refl eq_refl eq_refl eq_refl
            eq_refl eq_refl _).
  repeat split.
Defined.

(** ** Symmetry through the RK4 block *)

Section Rk4Symmetry.

Import Main.

(** A derivative function that commutes with the cyclic shift gives an RK4
    block that commutes with it. *)
Lemma rk4_case_rotate (deriv : jsnum -> jsnum -> jsnum -> Vector3)
    (dt x y z : jsnum) :
  (forall a c e, deriv c e a = rotate (deriv a c e)) ->
  Rk4.rk4_case deriv dt y z x = rotate (Rk4.rk4_case deriv dt x y z).
Proof.
  intros Hrot. unfold Rk4.rk4_case.
  rewrite (Hrot x y z).
  destruct (deriv x y z) as [[k1x k1y] k1z]. cbn [rotate].
  rewrite Hrot.
  destruct (deriv _ _ _) as [[k2x k2y] k2z]. cbn [rotate].
  rewrite Hrot.
  destruct (deriv _ _ _) as [[k3x k3y] k3z]. cbn [rotate].
  rewrite Hrot.
  destruct (deriv _ _ _) as [[k4x k4y] k4z]. cbn [rotate].
  reflexivity.
Qed.

End Rk4Symmetry.

(** X19: the RK4 variant keeps the cyclic symmetry of thomas: its step from
    (y, z, x) is its step from (x, y, z), shifted the same way, for every
    value of the state and the coefficients. *)
Theorem rk4_thomas_cyclic (s : Main.engine) :
  Main.currentAttractor s = "thomas"%string ->
  Main.newPoint (Rk4.computeNextPoint (with_point (rotate (Main.newPoint s)) s)) =
    rotate (Main.newPoint (Rk4.computeNextPoint s)).
Proof.
  intros Hcur. rewrite !newPoint_rk4. unfold Rk4.deltas.
  unfold with_point, rotate, Main.newPoint.
  cbn [Main.x Main.y Main.z Main.params Main.currentAttractor].
  rewrite Hcur.
  change (Rk4.case_of _ "thomas")
    with (Some (fun x y z => Rk4.thomasDerivatives x y z (thomas (Main.params s)),
                thomas (Main.params s))).
  change (Rk4.case_of s "thomas")
    with (Some (fun x y z => Rk4.thomasDerivatives x y z (thomas (Main.params s)),
                thomas (Main.params s))).
  cbv beta iota.
  rewrite (rk4_case_rotate _ _ (Main.x s) (Main.y s) (Main.z s)) by done.
  destruct (Rk4.rk4_case _ _ _ _ _) as [[dx dy] dz].
  reflexivity.
Qed.

Lemma rk4_thomas_cyclic_witness :
  Main.newPoint
    (Rk4.computeNextPoint
       (with_point (Num 0, Num 0, Num 0.1)
          (Rk4.changeAttractor "thomas" Main.initial))) =
  rotate (Main.newPoint
            (Rk4.computeNextPoint (Rk4.changeAttractor "thomas" Main.initial))).
Proof.
  exact (rk4_thomas_cyclic (Rk4.changeAttractor "thomas" Main.initial) eq_refl).
Defined.

(** ** The sliding window from any state *)

(** X20: the trail is a sliding window wherever the frames start: from any
    state with allocated buffers and a live count within the capacity, after
    any number of frames the trail is the last [maxPoints] entries of the
    trail it had followed by the points computed since, converted to binary32
    as the buffer stores them, oldest first. *)
Theorem trail_window (uis : list UI) (s : Main.engine) :
  Main.allocated s ->
  Main.pointCount s <= Main.maxPoints ->
  Main.trail (Main.run uis s) =
    drop (Main.pointCount s + length uis - Main.maxPoints)
      (Main.trail s ++ map stored (Main.trajectory uis s)) /\
  length (Main.trail (Main.run uis s)) =
    Nat.min (Main.pointCount s + length uis) Main.maxPoints.
Proof.
  intros Halloc Hle. split; [by apply trail_run |].
  by rewrite length_trail, pointCount_run.
Qed.

Lemma trail_window_witness :
  length (Main.trail (Main.run [Main.created_page; Main.bad_rho_page]
                        Main.after_first_frame)) =
  Nat.min (Main.pointCount Main.after_first_frame + 2) Main.maxPoints.
Proof.
  assert (Main.reachable Main.after_first_frame) as Hs
    by apply Main.reach_animate, Main.reach_initial.
  destruct (reachable_invariant _ Hs) as [Halloc Hle].
  exact (proj2 (trail_window [Main.created_page; Main.bad_rho_page]
                  Main.after_first_frame Halloc Hle)).
Defined.

(** ** The sliders as the guard of the parameters *)

Section SliderGuard.

#[local] Open Scope R_scope.

Lemma Q2R_inject_Z (n : Z) : Q2R (inject_Z n) = IZR n.
Proof. unfold Q2R, inject_Z. simpl. lra. Qed.

(** A decimal text within the binary64 range reads as the number it
    writes. *)
Lemma parsed_parseFloat (text : string) (q : Q) :
  Range.parsed text = Some q -> - 1000000 < Q2R q < 1000000 ->
  ParseFloat.parseFloat text = Num (Q2R q).
Proof.
  unfold Range.parsed, ParseFloat.parseFloat.
  destruct (ParseFloat.scan text) as [| minus | m e]; try done.
  intros [= <-] Hq. apply value_Finite; [| done].
  rewrite Q2R_mult, Q2R_inject_Z, RMicromega.Q2RpowerRZ by (left; done).
  do 2 f_equal. unfold Q2R. simpl. lra.
Qed.

(** Every slider of [createUI] has a [min] and a [max] that are numbers,
    the first not above the second, both within a thousand of zero. *)
Lemma sliders_bounded (sl : Range.slider) :
  sl ∈ Main.sliders ->
  exists mn mx : Q,
    Range.parsed (Range.min sl) = Some mn /\
    Range.parsed (Range.max sl) = Some mx /\
    (mn <= mx)%Q /\ - 1000 <= Q2R mn /\ Q2R mx <= 1000.
Proof.
  intros Hin%list_elem_of_In.
  assert (forallb
            (fun sl =>
               match Range.parsed (Range.min sl), Range.parsed (Range.max sl) with
               | Some mn, Some mx =>
                   Qle_bool mn mx && Qle_bool (- (1000)) mn && Qle_bool mx 1000
               | _, _ => false
               end) Main.sliders = true) as Hall by by vm_compute.
  rewrite forallb_forall in Hall. specialize (Hall sl Hin).
  destruct (Range.parsed (Range.min sl)) as [mn |]; [| done].
  destruct (Range.parsed (Range.max sl)) as [mx |]; [| done].
  apply andb_prop in Hall as [Hall H3]. apply andb_prop in Hall as [H1 H2].
  apply Qle_bool_iff in H1. apply RMicromega.Qle_true in H2, H3.
  assert (Q2R 1000 = 1000) as E2 by (unfold Q2R; simpl; lra).
  assert (Q2R (- (1000)) = - 1000) as E1 by by rewrite Q2R_opp, E2.
  rewrite E1 in H2. rewrite E2 in H3.
  exists mn, mx. repeat split; done.
Qed.

End SliderGuard.

(** X21: the sliders are what keeps the parameters finite.  Whatever text
    was assigned to a slider of [createUI], the frame that reads it stores in
    the coefficient a finite number between [parseFloat] of the slider's
    [min] and of its [max]. *)
Theorem slider_guard (ui : UI) (s : Main.engine) (m : Spec.Model)
    (key shown written : string) (sl : Range.slider) :
  Main.currentAttractor s = Spec.model_id m ->
  key ∈ keys (Spec.param_set (Main.params s) m) ->
  getElementById ui (Spec.model_id m ++ "-" ++ key)%string = Some shown ->
  sl ∈ Main.sliders ->
  Range.reads sl written shown = true ->
  exists a lo hi : R,
    prop (Spec.param_set (Main.params (Main.animate ui s)) m) key = Num a /\
    ParseFloat.parseFloat (Range.min sl) = Num lo /\
    ParseFloat.parseFloat (Range.max sl) = Num hi /\
    (lo <= a <= hi)%R.
Proof.
  intros Hcur Hkey Hui Hsl Hreads.
  destruct (sliders_bounded sl Hsl) as (mn & mx & Hmin & Hmax & Hle & Hlo & Hhi).
  unfold Range.reads in Hreads.
  destruct (Range.number shown) as [q |] eqn:Hq; [| done].
  pose proof (assigned_bounds sl written) as Hb.
  unfold Range.minimum, Range.maximum in Hb. rewrite Hmin, Hmax in Hb.
  cbn [default] in Hb. specialize (Hb Hle).
  apply Qeq_bool_iff in Hreads. rewrite <- Hreads in Hb.
  destruct Hb as [Hb1%Qle_Rle Hb2%Qle_Rle].
  apply Qle_Rle in Hle.
  unfold Range.number in Hq. destruct (Range.valid shown); [| done].
  exists (Q2R q), (Q2R mn), (Q2R mx).
  rewrite params_animate, prop_update, Hui by done.
  unfold Datatypes.id in Hb1, Hb2.
  rewrite (parsed_parseFloat shown q), (parsed_parseFloat _ mn),
    (parsed_parseFloat _ mx) by (done || lra).
  repeat split; done.
Qed.

Lemma slider_guard_witness :
  exists a lo hi : R,
    prop (Spec.param_set
            (Main.params (Main.animate Main.rho_rewritten_page Main.initial))
            Spec.Lorenz) "rho" = Num a /\
    ParseFloat.parseFloat "0" = Num lo /\
    ParseFloat.parseFloat "100" = Num hi /\
    (lo <= a <= hi)%R.
Proof.
  refine (slider_guard Main.rho_rewritten_page Main.initial Spec.Lorenz
            "rho" "50" "not-a-number"
            (Main.range "lorenz-rho" "0" "100" "0.1" "28") eq_refl _ eq_refl _ _).
  - cbn. rewrite !elem_of_cons. tauto.
  - unfold Main.sliders. rewrite !elem_of_cons. tauto.
  - vm_compute. reflexivity.
Defined.
